(** * The Auto-Fixer agent: detectors, fix applier and report

    A shallow embedding of the JavaScript sketched in the Auto-Fixer agent
    document: the class [AutoFixer] (constructor, [initializeFixers],
    [analyzeProject], [analyzeFile], [applyFixes], [applyFix],
    [presentSuggestedFixes], [generateReport]) and the two detectors the
    document spells out, [ReactFixer] and [SupabaseFixer].

    Conventions of the embedding:
    - a JavaScript string is a [string]; one [ascii] stands for one code unit
      (the code units 0..255), so [\s] is the white space of that range;
    - a JavaScript number is a binary64 [float], compared with the primitive
      [<=?] and [<?] (both false on NaN, as in JavaScript);
    - a regular expression literal is a value of [regex], matched by a
      backtracking matcher with the priorities of the JavaScript one; a
      [RegExp] object with the [g] flag lives in the heap with its
      [lastIndex];
    - statements run in the monad [JS]: a world in, an outcome (a value or a
      thrown exception) and a world out; the world holds the [AutoFixer]
      instance, the heap of [RegExp] objects, the trace of console lines and
      of calls to the host, and the host's own state;
    - methods the document calls but does not define ([getLineNumber],
      [findHookIssues], [fix], [createBackup], [promptUser], ...) are
      parameters; the calls that read or write files, and the detectors and
      fixers, may throw, while [promptUser], the clock and the pure helpers
      are taken to answer;
    - a count is a [nat], which the numbers of the code are below 2^53. *)

From Stdlib Require Import Floats Ascii String.
From stdpp Require Import gmap strings list.

Set Warnings "-inexact-float".
Local Open Scope string_scope.
Local Open Scope list_scope.
Local Open Scope nat_scope.

(** ** JavaScript strings *)

Module JsString.

(** [s.startsWith(p)] *)
Fixpoint startsWith (p s : string) : bool :=
  match p, s with
  | EmptyString, _ => true
  | String a p', String b s' => if Ascii.eqb a b then startsWith p' s' else false
  | String _ _, EmptyString => false
  end.

(** [s.indexOf(p)], [None] for -1 *)
Fixpoint indexOf (p s : string) : option nat :=
  if startsWith p s then Some 0
  else match s with
       | EmptyString => None
       | String _ s' => S <$> indexOf p s'
       end.

(** [s.includes(p)] *)
Definition includes (p s : string) : bool := bool_decide (is_Some (indexOf p s)).

(** [s.substring(n)] *)
Fixpoint drop (n : nat) (s : string) : string :=
  match n, s with
  | 0, _ => s
  | S n', String _ s' => drop n' s'
  | S _, EmptyString => EmptyString
  end.

(** [s.substring(0, n)] *)
Fixpoint take (n : nat) (s : string) : string :=
  match n, s with
  | 0, _ => EmptyString
  | S n', String c s' => String c (take n' s')
  | S _, EmptyString => EmptyString
  end.

(** GetSubstitution for a string pattern (no captures): in the replacement
    text [$$] is a dollar, [$&] the matched text, [$`] the text before the
    match and [$'] the text after it; every other character stands for
    itself. *)
Fixpoint getSubstitution (matched before after repl : string) : string :=
  match repl with
  | EmptyString => EmptyString
  | String "$"%char (String "$"%char r) =>
      String "$"%char (getSubstitution matched before after r)
  | String "$"%char (String "&"%char r) =>
      matched +:+ getSubstitution matched before after r
  | String "$"%char (String "`"%char r) =>
      before +:+ getSubstitution matched before after r
  | String "$"%char (String "'"%char r) =>
      after +:+ getSubstitution matched before after r
  | String c r => String c (getSubstitution matched before after r)
  end.

(** [s.replace(p, repl)] with a string pattern [p]: the first occurrence
    only; [s] itself when [p] does not occur. *)
Definition replace (p repl s : string) : string :=
  match indexOf p s with
  | None => s
  | Some i =>
      let before := take i s in
      let after := drop (i + String.length p) s in
      before +:+ getSubstitution p before after repl +:+ after
  end.

End JsString.

(** ** Regular expressions *)

Module RegExp.

(** The character classes of the two patterns: a literal code unit, a
    negated one-character class [[^c]], and [\s]. *)
Inductive cclass : Type :=
| CLit (c : ascii)
| CNot (c : ascii)
| CSpace.

(** WhiteSpace and LineTerminator code units below 256: TAB, LF, VT, FF,
    CR, SP and NBSP. *)
Definition isWhiteSpace (x : ascii) : bool :=
  bool_decide (nat_of_ascii x ∈ [9; 10; 11; 12; 13; 32; 160]).

Definition cmatch (k : cclass) (x : ascii) : bool :=
  match k with
  | CLit c => Ascii.eqb x c
  | CNot c => negb (Ascii.eqb x c)
  | CSpace => isWhiteSpace x
  end.

Inductive regex : Type :=
| Eps
| Atom (k : cclass)
| Star (k : cclass)              (* k*, greedy *)
| Plus (k : cclass)              (* k+, greedy *)
| Seq (r1 r2 : regex)
| Group (n : nat) (r : regex)    (* the n-th capturing group *)
| NegLookahead (r : regex).      (* (?!r) *)

Fixpoint Lit (s : string) : regex :=
  match s with
  | EmptyString => Eps
  | String c s' => Seq (Atom (CLit c)) (Lit s')
  end.

Fixpoint Seqs (rs : list regex) : regex :=
  match rs with
  | [] => Eps
  | r :: rs' => Seq r (Seqs rs')
  end.

(** The text consumed between the input [s] and its suffix [s']. *)
Definition consumed (s s' : string) : string :=
  JsString.take (String.length s - String.length s') s.

(** Greedy repetition of a class: the longest run first, then shorter
    ones as the continuation fails. *)
Fixpoint star_greedy {R} (k : cclass) (s : string) (cont : string → option R)
  : option R :=
  match s with
  | String x s' =>
      if cmatch k x
      then match star_greedy k s' cont with
           | Some r => Some r
           | None => cont s
           end
      else cont s
  | EmptyString => cont s
  end.

(** The backtracking matcher, in continuation-passing style: [cont]
    receives the rest of the input and the captures; [None] makes the
    matcher try its next alternative. *)
Fixpoint rmatch {R} (r : regex) (s : string) (cs : gmap nat string)
    (cont : string → gmap nat string → option R) : option R :=
  match r with
  | Eps => cont s cs
  | Atom k =>
      match s with
      | String x s' => if cmatch k x then cont s' cs else None
      | EmptyString => None
      end
  | Star k => star_greedy k s (λ s', cont s' cs)
  | Plus k =>
      match s with
      | String x s' => if cmatch k x then star_greedy k s' (λ s', cont s' cs) else None
      | EmptyString => None
      end
  | Seq r1 r2 => rmatch r1 s cs (λ s1 cs1, rmatch r2 s1 cs1 cont)
  | Group n r1 => rmatch r1 s cs (λ s1 cs1, cont s1 (<[n := consumed s s1]> cs1))
  | NegLookahead r1 =>
      match rmatch r1 s cs (λ _ _, Some ()) with
      | Some _ => None
      | None => cont s cs
      end
  end.

(** The array returned by [exec]: [index], element 0 and the groups. *)
Record MatchResult : Type := mkMatch {
  m_index : nat;
  m_0 : string;
  m_groups : gmap nat string
}.

(** [m[n]] for a group that took part in the match ([undefined]
    otherwise, which the two patterns never produce). *)
Definition group (m : MatchResult) (n : nat) : string := default "" (m_groups m !! n).

(** The leftmost match at or after the current position [i]: the end
    index and the match. *)
Fixpoint search (r : regex) (s : string) (i : nat) : option (nat * MatchResult) :=
  match rmatch r s ∅ (λ s' cs, Some (s', cs)) with
  | Some (s', cs) =>
      let m := consumed s s' in
      Some (i + String.length m, mkMatch i m cs)
  | None =>
      match s with
      | EmptyString => None
      | String _ t => search r t (S i)
      end
  end.

(** A [RegExp] object with the [g] flag. *)
Record RegExpObj : Type := mkRegExp { source : regex; lastIndex : nat }.

(** [re.exec(content)] on a global [RegExp]: it starts at [lastIndex],
    moves [lastIndex] to the end of the match, and resets it to 0 when
    there is none. *)
Definition exec (o : RegExpObj) (content : string) : option MatchResult * RegExpObj :=
  if Nat.ltb (String.length content) (lastIndex o)
  then (None, mkRegExp (source o) 0)
  else match search (source o) (JsString.drop (lastIndex o) content) (lastIndex o) with
       | Some (e, m) => (Some m, mkRegExp (source o) e)
       | None => (None, mkRegExp (source o) 0)
       end.

(** A pattern that cannot match the empty string. *)
Fixpoint nonempty (r : regex) : bool :=
  match r with
  | Atom _ | Plus _ => true
  | Seq r1 r2 => nonempty r1 || nonempty r2
  | Group _ r1 => nonempty r1
  | Eps | Star _ | NegLookahead _ => false
  end.

(** The matches a loop of [exec] visits from the state [o] of the object,
    and the state it leaves; [None] when the fuel runs out first. *)
Fixpoint matches (fuel : nat) (o : RegExpObj) (content : string)
  : option (list MatchResult) * RegExpObj :=
  match fuel with
  | 0 => (None, o)
  | S fuel' =>
      match exec o content with
      | (None, o') => (Some [], o')
      | (Some m, o') =>
          let '(ms, o'') := matches fuel' o' content in (cons m <$> ms, o'')
      end
  end.

(** The input with its longest run of characters of the class removed. *)
Fixpoint skip (k : cclass) (s : string) : string :=
  match s with
  | String x s' => if cmatch k x then skip k s' else s
  | EmptyString => s
  end.

End RegExp.

Import RegExp.

(** [/\.map\s*\(\s*([^)]+)\s*=>\s*<([^>]+)(?![^>]*key=)/g] *)
Definition mapPattern : regex :=
  Seqs [ Lit ".map"; Star CSpace; Lit "("; Star CSpace;
         Group 1 (Plus (CNot ")"%char)); Star CSpace; Lit "=>"; Star CSpace; Lit "<";
         Group 2 (Plus (CNot ">"%char));
         NegLookahead (Seq (Star (CNot ">"%char)) (Lit "key=")) ].

(** [/const\s+{\s*data\s*}\s*=\s*await\s+supabase/g] *)
Definition supabasePattern : regex :=
  Seqs [ Lit "const"; Plus CSpace; Lit "{"; Star CSpace; Lit "data"; Star CSpace;
         Lit "}"; Star CSpace; Lit "="; Star CSpace; Lit "await"; Plus CSpace;
         Lit "supabase" ].

(** [mapPattern] without its lookahead:
    [/\.map\s*\(\s*([^)]+)\s*=>\s*<([^>]+)/g] *)
Definition mapPattern_without_lookahead : regex :=
  Seqs [ Lit ".map"; Star CSpace; Lit "("; Star CSpace;
         Group 1 (Plus (CNot ")"%char)); Star CSpace; Lit "=>"; Star CSpace; Lit "<";
         Group 2 (Plus (CNot ">"%char)) ].

Definition scenarioA : string := "items.map(item => <div>{item.name}</div>)".
Definition scenarioB : string := "const { data } = await supabase.from('users').select('*')".

(** ** Findings, fixes and the fixer registry *)

(** The [fix] object of an issue: the matched text and its replacement. *)
Record Fix : Type := mkFix { original : string; fixed : string }.

(** An issue object, as the detectors build it. *)
Record Finding : Type := mkFinding {
  category : string;
  type : string;
  description : string;
  filePath : string;
  line : nat;
  confidence : float;
  fix_ : Fix
}.

(** What [fixer.fix(issue)] resolves to; [applyFix] reads [success] only. *)
Record FixResult : Type := mkResult { success : bool }.

(** An element of [appliedFixes]. *)
Record AppliedFix : Type := mkApplied {
  issue : Finding;
  result : FixResult;
  timestamp : string
}.

(** The fixer classes instantiated by [initializeFixers]. Their instances
    carry no field, so the class stands for the instance. *)
Inductive FixerClass : Type :=
| ESLintFixer | ReactFixer | SupabaseFixer | SecurityFixer | PerformanceFixer.

(** The values a configuration object holds. *)
Inductive JsVal : Type :=
| VBool (b : bool)
| VNumber (f : float)
| VString (s : string).

(** ToBoolean; a missing property ([undefined]) is falsy. *)
Definition truthy (v : option JsVal) : bool :=
  match v with
  | None => false
  | Some (VBool b) => b
  | Some (VNumber f) => negb (PrimFloat.eqb f 0 || PrimFloat.is_nan f)
  | Some (VString s) => negb (String.eqb s "")
  end.

(** A JavaScript [Map] with string keys: the entries in insertion order. *)
Module Map.
Definition t (V : Type) : Type := list (string * V).

Fixpoint set {V} (k : string) (v : V) (m : t V) : t V :=
  match m with
  | [] => [(k, v)]
  | (k', v') :: m' => if String.eqb k' k then (k', v) :: m' else (k', v') :: set k v m'
  end.

Fixpoint get {V} (m : t V) (k : string) : option V :=
  match m with
  | [] => None
  | (k', v') :: m' => if String.eqb k' k then Some v' else get m' k
  end.
End Map.

(** The fields of an [AutoFixer] instance. [config] is [None] when the
    constructor was called without an argument. *)
Record AutoFixer : Type := mkAutoFixer {
  config : option (gmap string JsVal);
  fixers : Map.t FixerClass;
  issues : list Finding;
  appliedFixes : list AppliedFix
}.

(** ** Worlds and the monad of statements *)

(** ** Object literals *)

(** The property names an object literal inherits from [Object.prototype]:
    a lookup of one of them that the object does not own gives a member of
    the prototype, which is truthy and no number. *)
Definition Object_prototype : list string :=
  [ "constructor"; "hasOwnProperty"; "isPrototypeOf"; "propertyIsEnumerable";
    "toLocaleString"; "toString"; "valueOf"; "__proto__";
    "__defineGetter__"; "__defineSetter__"; "__lookupGetter__"; "__lookupSetter__" ].

(** A value of the [categories] object of a report: a number that counts,
    or [NaN]. *)
Inductive Count : Type :=
| NaN
| Num (n : nat).

(** One round [if (!cats[c]) cats[c] = 0; cats[c]++] of the [forEach] of
    [generateReport], read on the property [c] alone: from the value the
    object owns under [c] before ([None]: it owns none), the value it owns
    after. An own 0 or [NaN] is falsy and starts again at 0. A name the
    object inherits is truthy, so it is not set to 0, and the increment of
    the inherited member gives [NaN], which becomes an own value; under
    [__proto__] the assignment of a number is ignored and the object never
    owns a value. *)
Definition counted (c : string) (own : option Count) : option Count :=
  match own with
  | Some (Num n) => Some (Num (S n))
  | Some NaN => Some (Num 1)
  | None =>
      if bool_decide (c = "__proto__") then None
      else if bool_decide (c ∈ Object_prototype) then Some NaN
      else Some (Num 1)
  end.

(** The lines the code writes with [console.log] and [console.error]. *)
Inductive LogLine : Type :=
| LogAnalyzing                                  (* Analyzing project for issues... *)
| LogFound (n : nat)                            (* Found n issues *)
| LogApplying                                   (* Applying automatic fixes... *)
| LogApplied (n : nat)                          (* Applied n fixes *)
| LogFixed (description filePath : string)      (* Fixed: d in f *)
| LogFailed (description : string)              (* Failed to fix: d *)
| LogError (message : string)                   (* Error applying fix: m *)
| LogSuggestedHeader                            (* Suggested fixes (require confirmation): *)
| LogDescription (description : string)
| LogFile (filePath : string)                   (* File: f *)
| LogConfidence (c : float).                    (* Confidence: c *)

(** What a run leaves behind, oldest first: the console lines, the answers
    of [promptUser], and one [Attempt] for each entry into [applyFix] (the
    last is a history variable: the code does not print it). *)
Inductive Event : Type :=
| Console (l : LogLine)
| Prompt (message : string) (answer : bool)
| Attempt (i : Finding).

Inductive Outcome (A : Type) : Type :=
| Ok (a : A)
| Throw (message : string)
| Diverge.
Arguments Ok {A} a.
Arguments Throw {A} message.
Arguments Diverge {A}.

Section Agent.

(** The state of the host: the file system, the clock, the user. *)
Context {Env : Type}.

Record World : Type := mkWorld {
  this : AutoFixer;
  heap : list RegExpObj;
  trace : list Event;
  env : Env
}.

Definition JS (A : Type) : Type := World → Outcome A * World.

(** A call into the host returns or throws, and may change the host. *)
Definition Ext (A : Type) : Type := Env → (A + string) * Env.

#[export] Instance JS_ret : MRet JS := λ A a w, (Ok a, w).

#[export] Instance JS_bind : MBind JS := λ A B f m w,
  match m w with
  | (Ok a, w') => f a w'
  | (Throw e, w') => (Throw e, w')
  | (Diverge, w') => (Diverge, w')
  end.

Definition throw {A} (message : string) : JS A := λ w, (Throw message, w).

Definition diverge {A} : JS A := λ w, (Diverge, w).

(** [try { body } catch (error) { handler(error.message) }] *)
Definition try_catch {A} (body : JS A) (handler : string → JS A) : JS A := λ w,
  match body w with
  | (Throw e, w') => handler e w'
  | r => r
  end.

Definition ext {A} (c : Ext A) : JS A := λ w,
  match c (env w) with
  | (inl a, e') => (Ok a, mkWorld (this w) (heap w) (trace w) e')
  | (inr msg, e') => (Throw msg, mkWorld (this w) (heap w) (trace w) e')
  end.

Definition emit (ev : Event) : JS () := λ w,
  (Ok (), mkWorld (this w) (heap w) (trace w ++ [ev]) (env w)).

Definition console_log (l : LogLine) : JS () := emit (Console l).

Definition get_this : JS AutoFixer := λ w, (Ok (this w), w).

Definition set_this (a : AutoFixer) : JS () := λ w,
  (Ok (), mkWorld a (heap w) (trace w) (env w)).

(** [for (const x of l) { body(x) }] *)
Fixpoint for_of {A} (l : list A) (body : A → JS ()) : JS () :=
  match l with
  | [] => mret ()
  | x :: l' => body x ≫= λ _, for_of l' body
  end.

(** [new RegExp(r, 'g')]: a fresh object, [lastIndex] 0. *)
Definition new_RegExp (r : regex) : JS nat := λ w,
  (Ok (length (heap w)),
   mkWorld (this w) (heap w ++ [mkRegExp r 0]) (trace w) (env w)).

(** [re.exec(content)] on the object at [re]. *)
Definition RegExp_exec (re : nat) (content : string) : JS (option MatchResult) := λ w,
  match heap w !! re with
  | Some o =>
      let '(m, o') := exec o content in
      (Ok m, mkWorld (this w) (<[re := o']> (heap w)) (trace w) (env w))
  | None => (Throw "TypeError: not a RegExp", w)
  end.

(** [while ((match = re.exec(content)) !== null) { issues.push(body(match)) }]
    followed by [return issues]. A loop that outlives its fuel diverges. *)
Fixpoint while_exec (fuel : nat) (re : nat) (content : string)
    (body : MatchResult → Finding) (issues : list Finding) : JS (list Finding) :=
  match fuel with
  | 0 => diverge
  | S fuel' =>
      m ← RegExp_exec re content;
      match m with
      | None => mret issues
      | Some m => while_exec fuel' re content body (issues ++ [body m])
      end
  end.

(** ** The host: what the document calls but does not define *)

Record Host : Type := mkHost {
  (* the platform *)
  fs_readFile : string → Ext string;                 (* fs.readFile(p, 'utf8') *)
  Date_toISOString : Env → string * Env;             (* new Date().toISOString() *)
  (* methods of AutoFixer *)
  getProjectFiles : string → Ext (list string);
  detectFileType : string → string;
  createBackup : string → Ext ();
  promptUser : string → Env → bool * Env;
  (* methods of ReactFixer and SupabaseFixer *)
  getLineNumber : FixerClass → string → nat → nat;
  findHookIssues : string → string → Ext (list Finding);
  findStateMutations : string → string → Ext (list Finding);
  findMissingAuthChecks : string → string → Ext (list Finding);
  findQueryOptimizations : string → string → Ext (list Finding);
  (* the classes ESLintFixer, SecurityFixer and PerformanceFixer *)
  other_canHandle : FixerClass → string → bool;
  other_analyze : FixerClass → string → string → Ext (list Finding);
  (* fixer.fix(issue), of every class *)
  fixer_fix : FixerClass → Finding → Ext FixResult
}.

Variable H : Host.

(** ** ReactFixer *)

Definition ReactFixer_canHandle (fileType : string) : bool :=
  bool_decide (fileType ∈ ["jsx"; "tsx"]).

Definition generateKeyFix (m : MatchResult) : Fix :=
  {| original := m_0 m;
     fixed := JsString.replace ("<" +:+ group m 2)
                               ("<" +:+ group m 2 +:+ " key={index}") (m_0 m) |}.

Definition missing_key (content filePath : string) (m : MatchResult) : Finding :=
  {| category := "react";
     type := "missing_key";
     description := "Missing key prop in list item";
     filePath := filePath;
     line := getLineNumber H ReactFixer content (m_index m);
     confidence := 0.95;
     fix_ := generateKeyFix m |}.

(** The loop is given one round for each character of the content and one
    more, which it never exhausts ([detector_run] below). *)
Definition findMissingKeys (content filePath : string) : JS (list Finding) :=
  re ← new_RegExp mapPattern;
  while_exec (S (String.length content)) re content (missing_key content filePath) [].

Definition ReactFixer_analyze (content filePath : string) : JS (list Finding) :=
  keys ← findMissingKeys content filePath;
  hooks ← ext (findHookIssues H content filePath);
  muts ← ext (findStateMutations H content filePath);
  mret (keys ++ hooks ++ muts).

(** ** SupabaseFixer *)

Definition SupabaseFixer_canHandle (fileType : string) : bool :=
  bool_decide (fileType ∈ ["js"; "jsx"; "ts"; "tsx"]).

Definition generateErrorHandlingFix (m : MatchResult) : Fix :=
  {| original := m_0 m;
     fixed := JsString.replace "const { data }" "const { data, error }" (m_0 m)
              +:+ String "010" "  if (error) throw error" |}.

Definition missing_error_handling (content filePath : string) (m : MatchResult) : Finding :=
  {| category := "supabase";
     type := "missing_error_handling";
     description := "Missing error handling for Supabase call";
     filePath := filePath;
     line := getLineNumber H SupabaseFixer content (m_index m);
     confidence := 0.9;
     fix_ := generateErrorHandlingFix m |}.

Definition findMissingErrorHandling (content filePath : string) : JS (list Finding) :=
  re ← new_RegExp supabasePattern;
  while_exec (S (String.length content)) re content
             (missing_error_handling content filePath) [].

Definition SupabaseFixer_analyze (content filePath : string) : JS (list Finding) :=
  errs ← findMissingErrorHandling content filePath;
  auths ← ext (findMissingAuthChecks H content filePath);
  opts ← ext (findQueryOptimizations H content filePath);
  mret (errs ++ auths ++ opts).

(** ** Dispatch on the fixer *)

Definition canHandle (f : FixerClass) (fileType : string) : bool :=
  match f with
  | ReactFixer => ReactFixer_canHandle fileType
  | SupabaseFixer => SupabaseFixer_canHandle fileType
  | _ => other_canHandle H f fileType
  end.

Definition analyze (f : FixerClass) (content filePath : string) : JS (list Finding) :=
  match f with
  | ReactFixer => ReactFixer_analyze content filePath
  | SupabaseFixer => SupabaseFixer_analyze content filePath
  | _ => ext (other_analyze H f content filePath)
  end.

(** ** AutoFixer *)

Definition initializeFixers (a : AutoFixer) : AutoFixer :=
  let m := Map.set "performance" PerformanceFixer
             (Map.set "security" SecurityFixer
               (Map.set "supabase" SupabaseFixer
                 (Map.set "react" ReactFixer
                   (Map.set "eslint" ESLintFixer (fixers a))))) in
  mkAutoFixer (config a) m (issues a) (appliedFixes a).

Definition constructor (config : option (gmap string JsVal)) : AutoFixer :=
  initializeFixers (mkAutoFixer config [] [] []).

(** [this.issues.push(...fileIssues)] *)
Definition push_issues (fileIssues : list Finding) : JS () :=
  a ← get_this;
  set_this (mkAutoFixer (config a) (fixers a) (issues a ++ fileIssues) (appliedFixes a)).

(** [this.appliedFixes.push(f)] *)
Definition push_appliedFix (f : AppliedFix) : JS () :=
  a ← get_this;
  set_this (mkAutoFixer (config a) (fixers a) (issues a) (appliedFixes a ++ [f])).

(** The body of the loop of [analyzeFile], for one entry of the map. *)
Definition analyzeWith (content filePath fileType : string)
    (entry : string * FixerClass) : JS () :=
  let '(name, fixer) := entry in
  if canHandle fixer fileType
  then fileIssues ← analyze fixer content filePath; push_issues fileIssues
  else mret ().

Definition analyzeFile (filePath : string) : JS () :=
  content ← ext (fs_readFile H filePath);
  let fileType := detectFileType H filePath in
  a ← get_this;
  for_of (fixers a) (analyzeWith content filePath fileType).

Definition analyzeProject (projectPath : string) : JS (list Finding) :=
  console_log LogAnalyzing;;
  files ← ext (getProjectFiles H projectPath);
  for_of files analyzeFile;;
  a ← get_this;
  console_log (LogFound (length (issues a)));;
  mret (issues a).

Definition applyFix (i : Finding) : JS () :=
  emit (Attempt i);;
  try_catch
    (a ← get_this;
     backup ← match config a with
              | Some c => mret (truthy (c !! "backup_before_fix"))
              | None => throw "Cannot read properties of undefined"
              end;
     (if backup : bool then ext (createBackup H (filePath i)) else mret ());;
     r ← match Map.get (fixers a) (category i) with
         | Some fixer => ext (fixer_fix H fixer i)
         | None => throw "Cannot read properties of undefined"
         end;
     if success r
     then
       t ← ext (λ e, let '(t, e') := Date_toISOString H e in (inl t, e'));
       push_appliedFix (mkApplied i r t);;
       console_log (LogFixed (description i) (filePath i))
     else console_log (LogFailed (description i)))
    (λ message, console_log (LogError message)).

(** The body of the loop of [presentSuggestedFixes], for one issue. *)
Definition presentSuggestedFix (i : Finding) : JS () :=
  console_log (LogDescription (description i));;
  console_log (LogFile (filePath i));;
  console_log (LogConfidence (confidence i));;
  shouldApply ← (λ w,
    let '(b, e') := promptUser H "Apply this fix? (y/n): " (env w) in
    (Ok b, mkWorld (this w) (heap w)
                   (trace w ++ [Prompt "Apply this fix? (y/n): " b]) e'));
  if shouldApply : bool then applyFix i else mret ().

Definition presentSuggestedFixes (l : list Finding) : JS () :=
  console_log LogSuggestedHeader;;
  for_of l presentSuggestedFix.

Definition applyFixes : JS (list AppliedFix) :=
  console_log LogApplying;;
  a ← get_this;
  let safeIssues := filter (λ i, Is_true (0.9 <=? confidence i)%float) (issues a) in
  let suggestedIssues := filter (λ i, Is_true (confidence i <? 0.9)%float) (issues a) in
  for_of safeIssues applyFix;;
  (if bool_decide (0 < length suggestedIssues)
   then presentSuggestedFixes suggestedIssues
   else mret ());;
  a' ← get_this;
  console_log (LogApplied (length (appliedFixes a')));;
  mret (appliedFixes a').

(** The report object. *)
Record Report : Type := mkReport {
  report_timestamp : string;
  total_issues : nat;
  applied_fixes : nat;
  categories : gmap string Count;
  files_modified : list string
}.

(** [[...new Set(l)]]: the distinct elements, in order of first occurrence. *)
Definition distinct (l : list string) : list string :=
  foldl (λ acc x, if bool_decide (x ∈ acc) then acc else acc ++ [x]) [] l.

(** The round of the [forEach] for the category [c]. *)
Definition count_category (cats : gmap string Count) (c : string) : gmap string Count :=
  match counted c (cats !! c) with
  | Some v => <[c := v]> cats
  | None => cats
  end.

(** The [forEach] that counts the applied fixes of each category. *)
Definition count_categories (l : list AppliedFix) : gmap string Count :=
  foldl (λ cats f, count_category cats (category (issue f))) ∅ l.

Definition generateReport : JS Report :=
  t ← ext (λ e, let '(t, e') := Date_toISOString H e in (inl t, e'));
  a ← get_this;
  mret {| report_timestamp := t;
          total_issues := length (issues a);
          applied_fixes := length (appliedFixes a);
          categories := count_categories (appliedFixes a);
          files_modified := distinct (map (λ f, filePath (issue f)) (appliedFixes a)) |}.

(** The programmatic usage: construct, analyze, fix, report. *)
Definition usage (config : option (gmap string JsVal)) (projectPath : string) : JS Report :=
  set_this (constructor config);;
  analyzeProject projectPath;;
  applyFixes;;
  generateReport.

End Agent.

Arguments World : clear implicits.
Arguments Host : clear implicits.
Arguments JS : clear implicits.
Arguments Ext : clear implicits.

(** ** A concrete host

    A file system held in a map, a user who answers from a script, a clock
    that stands still, and fixers that rewrite the file named by the issue. *)

Module Demo.

Record Env : Type := mkEnv {
  files : gmap string string;      (* path to content *)
  project : list string;           (* what getProjectFiles finds *)
  backups : list (string * string);
  answers : list bool              (* the user's answers, in order *)
}.

Definition readFile (p : string) : Ext Env string := λ e,
  match files e !! p with
  | Some c => (inl c, e)
  | None => (inr "ENOENT: no such file or directory", e)
  end.

Definition backup (p : string) : Ext Env () := λ e,
  match files e !! p with
  | Some c => (inl (), mkEnv (files e) (project e) (backups e ++ [(p, c)]) (answers e))
  | None => (inr "ENOENT: no such file or directory", e)
  end.

Definition prompt (message : string) (e : Env) : bool * Env :=
  match answers e with
  | [] => (false, e)
  | b :: rest => (b, mkEnv (files e) (project e) (backups e) rest)
  end.

(** The text after the last dot of the path. *)
Fixpoint extension (acc : string) (p : string) : string :=
  match p with
  | EmptyString => acc
  | String c p' => if Ascii.eqb c "."%char then extension p' p' else extension acc p'
  end.

(** One more than the number of line feeds before [index]. *)
Fixpoint lineNumber (content : string) (index : nat) : nat :=
  match index, content with
  | S n, String c s => (if Ascii.eqb c "010"%char then 1 else 0) + lineNumber s n
  | _, _ => 1
  end.

(** Modelled from the spec: the [fix] method of a fixer, which the document
    does not define. It applies the textual replacement of the finding to
    the file the finding names, and fails, leaving the file as it is, when
    the original text no longer occurs in the file. *)
Definition applyReplacement (f : Fix) (content : string) : option string :=
  if JsString.includes (original f) content
  then Some (JsString.replace (original f) (fixed f) content)
  else None.

Definition textual_fix (i : Finding) : Ext Env FixResult := λ e,
  match files e !! filePath i with
  | None => (inr "ENOENT: no such file or directory", e)
  | Some c =>
      match applyReplacement (fix_ i) c with
      | Some c' =>
          (inl (mkResult true),
           mkEnv (<[filePath i := c']> (files e)) (project e) (backups e) (answers e))
      | None => (inl (mkResult false), e)
      end
  end.

Definition host : Host Env :=
  {| fs_readFile := readFile;
     Date_toISOString := λ e, ("2024-01-15T10:30:00.000Z", e);
     getProjectFiles := λ _ e, (inl (project e), e);
     detectFileType := extension "";
     createBackup := backup;
     promptUser := prompt;
     getLineNumber := λ _, lineNumber;
     findHookIssues := λ _ _ e, (inl [], e);
     findStateMutations := λ _ _ e, (inl [], e);
     findMissingAuthChecks := λ _ _ e, (inl [], e);
     findQueryOptimizations := λ _ _ e, (inl [], e);
     other_canHandle := λ _ _, false;
     other_analyze := λ _ _ _ e, (inl [], e);
     fixer_fix := λ _, textual_fix |}.

(** A world around a fresh instance. *)
Definition world (config : option (gmap string JsVal)) (e : Env) : World Env :=
  mkWorld (constructor config) [] [] e.

End Demo.

(** ** The vocabulary of the statements *)

Section Notions.
Context {Env : Type}.

(** The decisions in a trace: the prompts and the attempts, without the
    console lines. *)
Fixpoint decisions (tr : list Event) : list Event :=
  match tr with
  | [] => []
  | Console _ :: tr' => decisions tr'
  | ev :: tr' => ev :: decisions tr'
  end.

(** The prompt of [presentSuggestedFixes]. *)
Definition question : string := "Apply this fix? (y/n): ".

(** What confirmation looks like: each finding is asked about, and
    attempted right after a yes. *)
Fixpoint confirmations (l : list Finding) (answers : list bool) : list Event :=
  match l, answers with
  | i :: l', b :: answers' =>
      Prompt question b :: (if b then [Attempt i] else []) ++ confirmations l' answers'
  | _, _ => []
  end.

(** The findings among [l] that the answers accept. *)
Fixpoint accepted (l : list Finding) (answers : list bool) : list Finding :=
  match l, answers with
  | i :: l', b :: answers' => (if b then [i] else []) ++ accepted l' answers'
  | _, _ => []
  end.

Definition safeIssues (l : list Finding) : list Finding :=
  filter (λ i, Is_true (0.9 <=? confidence i)%float) l.

Definition suggestedIssues (l : list Finding) : list Finding :=
  filter (λ i, Is_true (confidence i <? 0.9)%float) l.

(** The findings a trace attempted, in order. *)
Fixpoint attempts (tr : list Event) : list Finding :=
  match tr with
  | [] => []
  | Attempt i :: tr' => i :: attempts tr'
  | _ :: tr' => attempts tr'
  end.

(** The instance [a] with [new] pushed on [appliedFixes]. *)
Definition with_applied (a : AutoFixer) (new : list AppliedFix) : AutoFixer :=
  mkAutoFixer (config a) (fixers a) (issues a) (appliedFixes a ++ new).

(** [w'] comes from [w] by writing [tr] on the trace and pushing [new]
    on [appliedFixes]; the host may have changed, nothing else has. *)
Definition extends (w w' : World Env) (tr : list Event) (new : list AppliedFix) : Prop :=
  this w' = with_applied (this w) new ∧ heap w' = heap w ∧ trace w' = trace w ++ tr.

(** The applied fixes pushed by a run: successful ones only, for findings
    among [l], in the order of [l]. *)
Definition pushed_for (l : list Finding) (new : list AppliedFix) : Prop :=
  Forall (λ f, success (result f) = true) new ∧ issue <$> new `sublist_of` l.

(** A call into the host whose result does not depend on the state of the
    host. *)
Definition pure_ext {A} (c : Ext Env A) : Prop := ∀ e1 e2, (c e1).1 = (c e2).1.

(** The findings of a helper the document does not define carry the
    category [cat]. *)
Definition emits_category (cat : string) (c : Ext Env (list Finding)) : Prop :=
  ∀ e l i, (c e).1 = inl l → i ∈ l → category i = cat.

(** [w'] has the instance of [w] with more issues at the end. *)
Definition grows (w w' : World Env) : Prop :=
  ∃ l, this w' = mkAutoFixer (config (this w)) (fixers (this w))
                             (issues (this w) ++ l) (appliedFixes (this w)).

(** A statement that, however it ends, leaves the instance as it was but
    for issues pushed at the end. *)
Definition appends {A} (m : JS Env A) : Prop := ∀ w, grows w (m w).2.

(** What [applyFix] reads of the configuration: whether there is one, and
    then whether [backup_before_fix] is truthy. *)
Definition backup_flag (c : option (gmap string JsVal)) : option bool :=
  (λ c, truthy (c !! "backup_before_fix")) <$> c.

(** The instance [a] with its configuration changed by [g]. *)
Definition reconfigure (g : option (gmap string JsVal) → option (gmap string JsVal))
    (a : AutoFixer) : AutoFixer :=
  mkAutoFixer (g (config a)) (fixers a) (issues a) (appliedFixes a).

Definition with_config (g : option (gmap string JsVal) → option (gmap string JsVal))
    (w : World Env) : World Env :=
  mkWorld (reconfigure g (this w)) (heap w) (trace w) (env w).

(** A statement that runs the same way under the changed configuration. *)
Definition config_blind (g : option (gmap string JsVal) → option (gmap string JsVal))
    {A} (m : JS Env A) : Prop :=
  ∀ w, m (with_config g w) = ((m w).1, with_config g (m w).2).

End Notions.

(** ** Worlds and findings for the concrete host *)

Module Examples.

(** The configuration of the agent document. *)
Definition documented_config : gmap string JsVal :=
  {[ "confidence_threshold" := VNumber 0.8;
     "auto_apply" := VBool true;
     "backup_before_fix" := VBool true ]}.

(** A project of two files, the texts of the two scenarios. *)
Definition project_env : Demo.Env :=
  Demo.mkEnv {[ "src/List.jsx" := scenarioA; "src/api.js" := scenarioB ]}
             ["src/List.jsx"; "src/api.js"] [] [].

(** An instance built by the constructor that has found the issues [l]. *)
Definition instance_with (config : option (gmap string JsVal)) (l : list Finding)
  : AutoFixer :=
  mkAutoFixer config (fixers (constructor config)) l [].

(** A finding of the performance fixer, at the confidence the document
    gives performance fixes. *)
Definition performance_issue : Finding :=
  {| category := "performance";
     type := "add_react_memo";
     description := "Wrap component in React.memo";
     filePath := "src/App.jsx";
     line := 47;
     confidence := 0.8;
     fix_ := {| original := "export default App";
                fixed := "export default React.memo(App)" |} |}.

Definition app_env : Demo.Env :=
  Demo.mkEnv {[ "src/App.jsx" := "export default App" ]} ["src/App.jsx"] [] [].

(** The missing-key finding of the first scenario. *)
Definition list_issue : Finding :=
  {| category := "react";
     type := "missing_key";
     description := "Missing key prop in list item";
     filePath := "src/List.jsx";
     line := 1;
     confidence := 0.95;
     fix_ := {| original := ".map(item => <div";
                fixed := ".map(item => <div key={index}" |} |}.

(** The file of the finding has been rewritten since the analysis. *)
Definition stale_env : Demo.Env :=
  Demo.mkEnv {[ "src/List.jsx" := "export const List = () => null" ]}
             ["src/List.jsx"] [] [].

(** A world in which earlier analyses have left their [RegExp] objects. *)
Definition used_world : World Demo.Env :=
  mkWorld (instance_with (Some documented_config) [list_issue])
          [mkRegExp mapPattern 22; mkRegExp supabasePattern 0]
          [Console LogAnalyzing] stale_env.

End Examples.

(** ** The texts a pattern matches *)

(** Every character of [s] is in the class. *)
Fixpoint all_in (k : cclass) (s : string) : bool :=
  match s with
  | EmptyString => true
  | String c s' => cmatch k c && all_in k s'
  end.

(** [pre] is a text the pattern can consume, its lookaheads aside. *)
Fixpoint lang (r : regex) (pre : string) : Prop :=
  match r with
  | Eps => pre = ""
  | Atom k => ∃ c, pre = String c "" ∧ cmatch k c = true
  | Star k => all_in k pre = true
  | Plus k => pre ≠ "" ∧ all_in k pre = true
  | Seq r1 r2 => ∃ p1 p2, pre = p1 +:+ p2 ∧ lang r1 p1 ∧ lang r2 p2
  | Group _ r1 => lang r1 pre
  | NegLookahead _ => pre = ""
  end.

(** [m] is a match of the pattern in the content: its text is a text of the
    pattern and stands in the content at its index. *)
Definition match_of (r : regex) (content : string) (m : MatchResult) : Prop :=
  lang r (m_0 m)
  ∧ ∃ before after, content = before +:+ m_0 m +:+ after
                    ∧ String.length before = m_index m.

(** The matches stand from left to right from the position [from], none
    starting before the one before it ends. *)
Fixpoint in_order (from : nat) (ms : list MatchResult) : Prop :=
  match ms with
  | [] => True
  | m :: ms' => from ≤ m_index m ∧ in_order (m_index m + String.length (m_0 m)) ms'
  end.

(** ** The host after prompts *)

Section Prompts.
Context {Env : Type} (H : Host Env).

(** The state of the host after [n] prompts of [presentSuggestedFixes] and
    nothing else. *)
Fixpoint after_prompts (n : nat) (e : Env) : Env :=
  match n with
  | 0 => e
  | S n' => after_prompts n' (promptUser H "Apply this fix? (y/n): " e).2
  end.

End Prompts.

(** ** Answers *)

Section Answers.
Context {Env : Type} (H : Host Env).

(** An answer [promptUser] gives to the question of [presentSuggestedFixes]
    in some state of the host. *)
Definition answered (b : bool) : Prop :=
  ∃ e, (promptUser H "Apply this fix? (y/n): " e).1 = b.

End Answers.

(** ** Reading a report *)

(** The applied fixes of the category [c]. *)
Definition fixes_of_category (c : string) (l : list AppliedFix) : list AppliedFix :=
  filter (λ f, category (issue f) = c) l.

(** The sum of the counts of the categories of a report. *)
Definition sum_counts (cats : gmap string nat) : nat :=
  map_fold (λ _ n acc, n + acc) 0 cats.

(** ** The detection patterns of the document *)

(** The loop shared by [s.match(re)] and [[...s.matchAll(re)]] for a global
    [re]: the matches of [exec], in order; after an empty match [lastIndex]
    moves one further. [None] when the fuel runs out first. *)
Fixpoint matchAll_loop (fuel : nat) (o : RegExpObj) (s : string)
  : option (list MatchResult) :=
  match fuel with
  | 0 => None
  | S fuel' =>
      match exec o s with
      | (None, _) => Some []
      | (Some m, o') =>
          let o'' := if String.eqb (m_0 m) ""
                     then mkRegExp (source o') (S (lastIndex o'))
                     else o' in
          cons m <$> matchAll_loop fuel' o'' s
      end
  end.

(** The matches of a pattern in a string, from [lastIndex] 0. The loop is
    given one round for each position of the string and one more. *)
Definition matchAll (r : regex) (s : string) : option (list MatchResult) :=
  matchAll_loop (S (S (String.length s))) (mkRegExp r 0) s.

(** [/[^;]\s*\n/g] *)
Definition semicolonPattern : regex :=
  Seqs [ Atom (CNot ";"%char); Star CSpace; Atom (CLit "010"%char) ].

(** [detectMissingSemicolons]: [code.match(pattern) || []], the matched
    texts. *)
Definition detectMissingSemicolons (code : string) : option (list string) :=
  match matchAll semicolonPattern code with
  | Some ms => Some (m_0 <$> ms)
  | None => None
  end.

(** [detectMissingErrorHandling]: [[...code.matchAll(supabasePattern)]]. *)
Definition detectMissingErrorHandling (code : string) : option (list MatchResult) :=
  matchAll supabasePattern code.

(** ** The groups of a match *)

(** [pre] is a text the pattern can consume, its lookaheads aside, and
    consuming it takes the captures [cs] to [cs']. *)
Fixpoint captures (r : regex) (pre : string) (cs cs' : gmap nat string) : Prop :=
  match r with
  | Seq r1 r2 =>
      ∃ p1 p2 cs1, pre = p1 +:+ p2 ∧ captures r1 p1 cs cs1 ∧ captures r2 p2 cs1 cs'
  | Group n r1 => ∃ cs1, captures r1 pre cs cs1 ∧ cs' = <[n := pre]> cs1
  | _ => lang r pre ∧ cs' = cs
  end.

(** ** How an attempt ends *)

(** The console line that reports a fix. *)
Definition reports_fix (ev : Event) : bool :=
  match ev with
  | Console (LogFixed _ _) => true
  | _ => false
  end.

(** The console lines that report a failure: the line of a result that is
    no success, and the line of a caught exception. *)
Definition reports_failure (ev : Event) : bool :=
  match ev with
  | Console (LogFailed _) | Console (LogError _) => true
  | _ => false
  end.

(** How many fixes, and how many failures, a trace reports. *)
Definition fixes_reported (tr : list Event) : nat :=
  length (filter (λ ev, Is_true (reports_fix ev)) tr).

Definition failures_reported (tr : list Event) : nat :=
  length (filter (λ ev, Is_true (reports_failure ev)) tr).

Section Endings.
Context {Env : Type} (H : Host Env).

(** The backup of [applyFix] for the finding [i] has gone well in the world
    [w] and has left the host in [e1]: where the configuration asks for a
    backup it has been made, and where it does not the host is untouched.
    An instance without a configuration gets no further than reading it. *)
Definition backed_up (i : Finding) (w : World Env) (e1 : Env) : Prop :=
  match backup_flag (config (this w)) with
  | Some true => createBackup H (filePath i) (env w) = (inl (), e1)
  | Some false => e1 = env w
  | None => False
  end.

(** The applied fix holds a successful result that the fixer registered
    under the category of its finding returned for that finding, in some
    state of the host. *)
Definition returned_by (a : AutoFixer) (f : AppliedFix) : Prop :=
  success (result f) = true
  ∧ ∃ fixer e, Map.get (fixers a) (category (issue f)) = Some fixer
               ∧ (fixer_fix H fixer (issue f) e).1 = inl (result f).

(** The account of a stretch of a run that wrote [tr] and pushed [new]:
    what it pushed the fixers returned, it reports as many fixes as it
    pushed, and every attempt that pushed nothing reports a failure. *)
Definition accounted (a : AutoFixer) (tr : list Event) (new : list AppliedFix) : Prop :=
  Forall (returned_by a) new
  ∧ fixes_reported tr = length new
  ∧ failures_reported tr + length new = length (attempts tr).

End Endings.

(** ** The order of first occurrence *)

(** The elements of a list, each once, where it first occurs. *)
Fixpoint first_occurrences (l : list string) : list string :=
  match l with
  | [] => []
  | x :: l' => x :: filter (λ y, y ≠ x) (first_occurrences l')
  end.

(** ** Further examples *)

Module Samples.

(** A finding of a category the document lists and the registry lacks. *)
Definition formatting_issue : Finding :=
  {| category := "formatting";
     type := "eslint_auto_fixable";
     description := "Missing semicolon";
     filePath := "src/App.jsx";
     line := 1;
     confidence := 0.95;
     fix_ := {| original := "export default App";
                fixed := "export default App;" |} |}.

(** A finding whose confidence is not a number. *)
Definition nan_issue : Finding :=
  {| category := "react";
     type := "missing_key";
     description := "Missing key prop in list item";
     filePath := "src/App.jsx";
     line := 1;
     confidence := PrimFloat.nan;
     fix_ := {| original := "export default App";
                fixed := "export default App" |} |}.

(** The concrete host with a user who declines every fix. *)
Definition declining_host : Host Demo.Env :=
  {| fs_readFile := Demo.readFile;
     Date_toISOString := λ e, ("2024-01-15T10:30:00.000Z", e);
     getProjectFiles := λ _ e, (inl (Demo.project e), e);
     detectFileType := Demo.extension "";
     createBackup := Demo.backup;
     promptUser := λ _ e, (false, e);
     getLineNumber := λ _, Demo.lineNumber;
     findHookIssues := λ _ _ e, (inl [], e);
     findStateMutations := λ _ _ e, (inl [], e);
     findMissingAuthChecks := λ _ _ e, (inl [], e);
     findQueryOptimizations := λ _ _ e, (inl [], e);
     other_canHandle := λ _ _, false;
     other_analyze := λ _ _ _ e, (inl [], e);
     fixer_fix := λ _, Demo.textual_fix |}.

(** A project whose listing names a file that is not there. *)
Definition broken_env : Demo.Env :=
  Demo.mkEnv {[ "src/List.jsx" := scenarioA; "src/api.js" := scenarioB ]}
             ["src/List.jsx"; "src/missing.js"; "src/api.js"] [] [].

(** A project of one file that no fixer handles. *)
Definition docs_env : Demo.Env :=
  Demo.mkEnv {[ "README.md" := "# items.map(item => <div>{item.name}</div>)" ]}
             ["README.md"] [] [].

(** The concrete host over a root directory that cannot be listed. *)
Definition rootless_host : Host Demo.Env :=
  {| fs_readFile := Demo.readFile;
     Date_toISOString := λ e, ("2024-01-15T10:30:00.000Z", e);
     getProjectFiles := λ _ e, (inr "ENOENT: no such file or directory, scandir", e);
     detectFileType := Demo.extension "";
     createBackup := Demo.backup;
     promptUser := Demo.prompt;
     getLineNumber := λ _, Demo.lineNumber;
     findHookIssues := λ _ _ e, (inl [], e);
     findStateMutations := λ _ _ e, (inl [], e);
     findMissingAuthChecks := λ _ _ e, (inl [], e);
     findQueryOptimizations := λ _ _ e, (inl [], e);
     other_canHandle := λ _ _, false;
     other_analyze := λ _ _ _ e, (inl [], e);
     fixer_fix := λ _, Demo.textual_fix |}.

End Samples.

(** ** FixAnalytics *)

Module FixAnalytics.

(** [this.metrics]. Its numbers start at zero and grow by whole steps;
    they are naturals here, which the numbers of the code are as long as
    they stay below 2^53. *)
Record Metrics : Type := mkMetrics {
  total_fixes : nat;
  success_rate : nat;
  categories : gmap string nat;
  time_saved : nat
}.

Definition constructor : Metrics :=
  {| total_fixes := 0; success_rate := 0; categories := ∅; time_saved := 0 |}.

Definition timeSavings : gmap string nat :=
  list_to_map [ ("formatting", 1); ("imports", 2); ("react_keys", 3);
                ("error_handling", 5); ("security", 10) ].

(** [o[k] || d] for an object [o] that owns numbers only; [None] where the
    value is an inherited member and the result no number. *)
Definition number_or (o : gmap string nat) (k : string) (d : nat) : option nat :=
  match o !! k with
  | Some n => Some (if bool_decide (n = 0) then d else n)
  | None => if bool_decide (k ∈ Object_prototype) then None else Some d
  end.

Definition estimateTimeSaved (f : Finding) : option nat :=
  number_or timeSavings (type f) 2.

(** [recordFix(fix)]; [None] where a number of the metrics is lost. *)
Definition recordFix (f : Finding) (m : Metrics) : option Metrics :=
  count ← number_or (categories m) (category f) 0;
  saved ← estimateTimeSaved f;
  Some {| total_fixes := total_fixes m + 1;
          success_rate := success_rate m;
          categories := <[category f := count + 1]> (categories m);
          time_saved := time_saved m + saved |}.

(** [recordFix] called for each finding of a list in turn. *)
Fixpoint recordFixes (l : list Finding) (m : Metrics) : option Metrics :=
  match l with
  | [] => Some m
  | f :: l' => m' ← recordFix f m; recordFixes l' m'
  end.

(** Neither the category nor the type of the finding is a property name of
    [Object.prototype]. *)
Definition plain (f : Finding) : Prop :=
  (category f ∉ Object_prototype) ∧ (type f ∉ Object_prototype).

End FixAnalytics.

(** ** The matcher makes progress *)

Lemma length_drop (n : nat) (s : string) :
  String.length (JsString.drop n s) = String.length s - n.
Proof. revert s. induction n as [|n IH]; intros [|c s]; simpl; auto with lia. Qed.

Lemma length_take (n : nat) (s : string) :
  String.length (JsString.take n s) = n `min` String.length s.
Proof. revert s. induction n as [|n IH]; intros [|c s]; simpl; auto with lia. Qed.

Lemma star_greedy_suffix {R} (k : cclass) (s : string) (cont : string → option R) (x : R) :
  star_greedy k s cont = Some x →
  ∃ s', cont s' = Some x ∧ String.length s' ≤ String.length s.
Proof.
  induction s as [|c s IH]; simpl; [by eauto|].
  destruct (cmatch k c); [|by eauto].
  destruct (star_greedy k s cont) as [y|] eqn:E; [|by eauto].
  intros [= ->]. destruct (IH eq_refl) as (s' & ? & ?). eauto with lia.
Qed.

(** Whatever a match hands to its continuation is a shorter input, and a
    strictly shorter one when the pattern cannot match the empty string. *)
Lemma rmatch_suffix {R} (r : regex) (s : string) (cs : gmap nat string)
    (cont : string → gmap nat string → option R) (x : R) :
  rmatch r s cs cont = Some x →
  ∃ s' cs', cont s' cs' = Some x
            ∧ String.length s' ≤ String.length s
            ∧ (nonempty r = true → String.length s' < String.length s).
Proof.
  revert R s cs cont x.
  induction r as [|k|k|k|r1 IH1 r2 IH2|n r1 IH1|r1 IH1]; intros R s cs cont x; simpl.
  - intros E. exists s, cs. split_and!; [done|lia|done].
  - destruct s as [|c s]; [done|]. destruct (cmatch k c); [|done].
    intros E. exists s, cs. simpl. split_and!; [done|lia|lia].
  - intros E. apply star_greedy_suffix in E as (s' & E & L). exists s', cs. by split_and!.
  - destruct s as [|c s]; [done|]. destruct (cmatch k c); [|done].
    intros E. apply star_greedy_suffix in E as (s' & E & L). exists s', cs. simpl.
    split_and!; [done|lia|lia].
  - intros E. apply IH1 in E as (s1 & cs1 & E & L1 & N1).
    apply IH2 in E as (s2 & cs2 & E & L2 & N2).
    exists s2, cs2. split_and!; [done|lia|].
    intros [N|N]%orb_true_iff; [specialize (N1 N)|specialize (N2 N)]; lia.
  - intros E. apply IH1 in E as (s1 & cs1 & E & L1 & N1). eauto.
  - destruct (rmatch r1 s cs _); [done|].
    intros E. exists s, cs. split_and!; [done|lia|done].
Qed.

(** A match of a pattern that cannot match the empty string ends after it
    starts, and within the input. *)
Lemma search_bounds (r : regex) (s : string) (i e : nat) (m : MatchResult) :
  nonempty r = true → search r s i = Some (e, m) → i < e ≤ i + String.length s.
Proof.
  intros N. revert i. induction s as [|c s IH]; intros i; simpl.
  - destruct (rmatch r "" ∅ _) as [[s' cs]|] eqn:E; [|done].
    apply rmatch_suffix in E as (s1 & cs1 & _ & _ & L). specialize (L N). simpl in L. lia.
  - destruct (rmatch r (String c s) ∅ _) as [[s' cs]|] eqn:E.
    + apply rmatch_suffix in E as (s1 & cs1 & [= -> ->] & _ & L). specialize (L N).
      intros [= <- <-]. unfold consumed. rewrite length_take. simpl in *. lia.
    + intros E'. apply IH in E'. lia.
Qed.

(** The loop of [exec] ends: one more round than the input has characters
    left is enough for a pattern that cannot match the empty string. *)
Lemma matches_total (fuel : nat) (o : RegExpObj) (content : string) :
  nonempty (source o) = true →
  String.length content - lastIndex o < fuel →
  is_Some (matches fuel o content).1.
Proof.
  intros N. revert o N. induction fuel as [|fuel IH]; intros o N L; [lia|].
  simpl. unfold exec. destruct (Nat.ltb_spec (String.length content) (lastIndex o)).
  { by eexists. }
  destruct (search _ _ _) as [[e m]|] eqn:E; [|by eexists].
  apply search_bounds in E; [|done]. rewrite length_drop in E.
  destruct (matches fuel (mkRegExp (source o) e) content) as [ms o''] eqn:Em.
  assert (S : is_Some (matches fuel (mkRegExp (source o) e) content).1).
  { apply IH; simpl; [done|lia]. }
  rewrite Em in S. simpl in S. destruct S as [ms' ->]. by eexists.
Qed.

(** ** The lookahead of the missing-key pattern *)

Lemma star_greedy_ext {R} (k : cclass) (s : string) (c1 c2 : string → option R) :
  (∀ s', c1 s' = c2 s') → star_greedy k s c1 = star_greedy k s c2.
Proof.
  intros E. induction s as [|x s IH]; simpl; [done|]. by rewrite IH, E.
Qed.

Lemma rmatch_ext {R} (r : regex) (s : string) (cs : gmap nat string)
    (c1 c2 : string → gmap nat string → option R) :
  (∀ s' cs', c1 s' cs' = c2 s' cs') → rmatch r s cs c1 = rmatch r s cs c2.
Proof.
  revert s cs c1 c2.
  induction r as [|k|k|k|r1 IH1 r2 IH2|n r1 IH1|r1 IH1]; intros s cs c1 c2 E; simpl.
  - done.
  - destruct s as [|x s]; [done|]. by rewrite E.
  - by apply star_greedy_ext.
  - destruct s as [|x s]; [done|]. destruct (cmatch k x); [|done].
    by apply star_greedy_ext.
  - apply IH1. intros s1 cs1. by apply IH2.
  - by apply IH1.
  - by rewrite E.
Qed.

(** A greedy run whose continuation accepts the longest run stops there. *)
Lemma star_greedy_longest {R} (k : cclass) (s : string) (cont : string → option R) (x : R) :
  cont (skip k s) = Some x → star_greedy k s cont = Some x.
Proof.
  induction s as [|c s IH]; simpl; [done|].
  destruct (cmatch k c); [|done]. intros E. by rewrite (IH E).
Qed.

(** After the longest run of [[^>]] no [key=] can follow. *)
Lemma no_key_after_tag (s : string) (cs : gmap nat string) :
  rmatch (Seq (Star (CNot ">"%char)) (Lit "key=")) (skip (CNot ">"%char) s) cs
         (λ _ _, Some ()) = None.
Proof.
  induction s as [|c s IH]; [reflexivity|].
  change (skip (CNot ">"%char) (String c s))
    with (if cmatch (CNot ">"%char) c then skip (CNot ">"%char) s else String c s).
  destruct (cmatch (CNot ">"%char) c) eqn:E; [done|].
  simpl in E. apply negb_false_iff, Ascii.eqb_eq in E as ->. reflexivity.
Qed.

Lemma Seq_cong_r {R} (r r2 r2' : regex) (k : string → gmap nat string → option R) :
  (∀ s cs, rmatch r2 s cs k = rmatch r2' s cs k) →
  ∀ s cs, rmatch (Seq r r2) s cs k = rmatch (Seq r r2') s cs k.
Proof. intros E s cs. simpl. by apply rmatch_ext. Qed.

(** At the end of the pattern the lookahead always passes: the greedy group
    before it has taken the tag text up to its [>]. *)
Lemma tag_with_lookahead (s : string) (cs : gmap nat string) :
  rmatch (Seqs [Group 2 (Plus (CNot ">"%char));
                NegLookahead (Seq (Star (CNot ">"%char)) (Lit "key="))])
         s cs (λ s' cs', Some (s', cs'))
  = rmatch (Seqs [Group 2 (Plus (CNot ">"%char))]) s cs (λ s' cs', Some (s', cs')).
Proof.
  set (L := Seq (Star (CNot ">"%char)) (Lit "key=")).
  destruct s as [|x s]; [done|]. cbn [Seqs rmatch].
  destruct (cmatch _ x); [|done].
  rewrite (star_greedy_longest _ _ _
             (skip (CNot ">"%char) s,
              <[2 := consumed (String x s) (skip (CNot ">"%char) s)]> cs)).
  - symmetry. by apply star_greedy_longest.
  - unfold L. by rewrite no_key_after_tag.
Qed.

(** The lookahead never rejects a match: with or without it the pattern
    finds the same matches. *)
Lemma lookahead_never_rejects (s : string) (i : nat) :
  search mapPattern s i = search mapPattern_without_lookahead s i.
Proof.
  assert (E : ∀ t cs, rmatch mapPattern t cs (λ s' cs', Some (s', cs'))
                  = rmatch mapPattern_without_lookahead t cs (λ s' cs', Some (s', cs'))).
  { unfold mapPattern, mapPattern_without_lookahead. cbn [Seqs].
    do 9 apply Seq_cong_r. apply tag_with_lookahead. }
  revert i. induction s as [|c s IH]; intros i; cbn [search]; rewrite E; [done|].
  by rewrite IH.
Qed.

(** ** Comparing numbers *)

Lemma SFleb_not_SFltb (a b : spec_float) : SFleb a b = true → SFltb b a = false.
Proof.
  unfold SFleb, SFltb, SFcompare.
  destruct a as [sa|sa| |sa ma ea], b as [sb|sb| |sb mb eb];
    try destruct sa; try destruct sb; try reflexivity; try discriminate.
  all: fold (Pos.compare mb ma); fold (Pos.compare ma mb);
    rewrite ?(Z.compare_antisym ea eb), ?(Pos.compare_antisym ma mb);
    destruct (ea ?= eb)%Z; try reflexivity; try discriminate;
    destruct (ma ?= mb)%positive; try reflexivity; try discriminate.
Qed.

(** No number is both at least [a] and below [a]. *)
Lemma leb_not_ltb (a b : float) : (a <=? b)%float = true → (b <? a)%float = false.
Proof. rewrite leb_spec, ltb_spec. apply SFleb_not_SFltb. Qed.

(** ** What a run decided *)

Section Runs.
Context {Env : Type} (H : Host Env).

Local Abbreviation appends := (appends (Env := Env)).
Local Abbreviation config_blind := (config_blind (Env := Env)).

Lemma decisions_app (l1 l2 : list Event) :
  decisions (l1 ++ l2) = decisions l1 ++ decisions l2.
Proof. induction l1 as [|ev l1 IH]; [done|]. destruct ev; simpl; congruence. Qed.

Lemma extends_refl (w : World Env) : extends w w [] [].
Proof.
  unfold extends, with_applied. rewrite !app_nil_r. by destruct w as [[]].
Qed.

Lemma extends_trans (w1 w2 w3 : World Env) tr1 tr2 new1 new2 :
  extends w1 w2 tr1 new1 → extends w2 w3 tr2 new2 →
  extends w1 w3 (tr1 ++ tr2) (new1 ++ new2).
Proof.
  unfold extends, with_applied. intros (-> & -> & ->) (-> & -> & ->). simpl.
  by rewrite !app_assoc.
Qed.

Lemma extends_emit (w : World Env) (ev : Event) :
  extends w (mkWorld (this w) (heap w) (trace w ++ [ev]) (env w)) [ev] [].
Proof. unfold extends, with_applied. rewrite app_nil_r. by destruct w as [[]]. Qed.

Lemma pushed_for_nil l : pushed_for l [].
Proof. split; [constructor | apply sublist_nil_l]. Qed.

Lemma pushed_for_app l1 l2 new1 new2 :
  pushed_for l1 new1 → pushed_for l2 new2 → pushed_for (l1 ++ l2) (new1 ++ new2).
Proof.
  intros [F1 S1] [F2 S2]. split; [by apply Forall_app|].
  rewrite fmap_app. by apply sublist_app.
Qed.

(** One run of [applyFix]: it returns normally whatever the fixer does, it
    is one attempt and no prompt, and it pushes at most one applied fix,
    a successful one. *)
Lemma applyFix_run (i : Finding) (w : World Env) :
  ∃ tr new w',
    applyFix H i w = (Ok (), w') ∧ extends w w' tr new
    ∧ decisions tr = [Attempt i] ∧ pushed_for [i] new.
Proof.
  destruct w as [[c fx iss afs] hp tr0 e].
  unfold applyFix, try_catch, mbind, JS_bind, emit, get_this, ext, throw, mret, JS_ret,
    push_appliedFix, console_log, emit, set_this, extends, pushed_for, with_applied; simpl.
  destruct c as [c|]; simpl.
  2:{ eexists [_; _], [], _. rewrite app_nil_r, <- app_assoc. simpl.
      repeat split; eauto using sublist_nil_l. }
  repeat case_match; simplify_eq/=; rewrite <- ?app_assoc; simpl.
  all: try (eexists _, [], _; rewrite app_nil_r; repeat split;
            eauto using sublist_nil_l; done).
  all: eexists _, [_], _; repeat split; eauto.
Qed.

Lemma for_applyFix_run (l : list Finding) (w : World Env) :
  ∃ tr new w',
    for_of l (applyFix H) w = (Ok (), w') ∧ extends w w' tr new
    ∧ decisions tr = Attempt <$> l ∧ pushed_for l new.
Proof.
  revert w. induction l as [|i l IH]; intros w.
  - exists [], [], w. split_and!; auto using extends_refl, pushed_for_nil.
  - destruct (applyFix_run i w) as (tr1 & new1 & w1 & E1 & X1 & D1 & P1).
    destruct (IH w1) as (tr2 & new2 & w2 & E2 & X2 & D2 & P2).
    exists (tr1 ++ tr2), (new1 ++ new2), w2. split.
    { simpl. unfold mbind, JS_bind. by rewrite E1. }
    split; [by eapply extends_trans|]. split.
    { by rewrite decisions_app, D1, D2. }
    by apply (pushed_for_app [i] l).
Qed.

Lemma bind_run {A B} (m : JS Env A) (f : A → JS Env B) (w : World Env) :
  (m ≫= f) w = match m w with
               | (Ok a, w') => f a w'
               | (Throw e, w') => (Throw e, w')
               | (Diverge, w') => (Diverge, w')
               end.
Proof. reflexivity. Qed.

Lemma presentSuggestedFix_run (i : Finding) (w : World Env) :
  ∃ b tr new w',
    presentSuggestedFix H i w = (Ok (), w') ∧ extends w w' tr new
    ∧ decisions tr = Prompt question b :: (if b then [Attempt i] else [])
    ∧ pushed_for (if b then [i] else []) new.
Proof.
  unfold presentSuggestedFix, console_log, emit.
  do 4 (rewrite bind_run; cbv beta iota). simpl.
  destruct (promptUser H _ (env w)) as [b e'] eqn:Eb.
  set (w0 := mkWorld _ _ _ e').
  pose (tr0 := [Console (LogDescription (description i));
                Console (LogFile (filePath i));
                Console (LogConfidence (confidence i));
                Prompt question b]).
  assert (X0 : extends w w0 tr0 []).
  { unfold extends, with_applied, w0. simpl. rewrite app_nil_r, <- !app_assoc.
    by destruct w as [[]]. }
  destruct b.
  - destruct (applyFix_run i w0) as (tr1 & new1 & w1 & E1 & X1 & D1 & P1).
    exists true, (tr0 ++ tr1), ([] ++ new1), w1.
    split_and!; [done| |by rewrite decisions_app, D1|done].
    by eapply extends_trans.
  - exists false, tr0, [], w0. split_and!; [done|done|done|apply pushed_for_nil].
Qed.

Lemma presentSuggestedFixes_loop_run (l : list Finding) (w : World Env) :
  ∃ answers tr new w',
    for_of l (presentSuggestedFix H) w = (Ok (), w')
    ∧ extends w w' tr new ∧ length answers = length l
    ∧ decisions tr = confirmations l answers ∧ pushed_for (accepted l answers) new.
Proof.
  revert w. induction l as [|i l IH]; intros w.
  - exists [], [], [], w. split_and!; auto using extends_refl, pushed_for_nil.
  - destruct (presentSuggestedFix_run i w) as (b & tr1 & new1 & w1 & E1 & X1 & D1 & P1).
    destruct (IH w1) as (ans & tr2 & new2 & w2 & E2 & X2 & L2 & D2 & P2).
    exists (b :: ans), (tr1 ++ tr2), (new1 ++ new2), w2. split_and!.
    + simpl. by rewrite bind_run, E1.
    + by eapply extends_trans.
    + simpl. by rewrite L2.
    + rewrite decisions_app, D1, D2. done.
    + simpl. by apply pushed_for_app.
Qed.

(** One run of [applyFixes]: it returns [appliedFixes]; every finding at or
    above 0.9 is attempted, in order, before any prompt; every finding below
    0.9 is asked about, and attempted only after a yes. *)
Lemma applyFixes_run (w : World Env) :
  ∃ answers tr new w',
    applyFixes H w = (Ok (appliedFixes (this w) ++ new), w')
    ∧ extends w w' tr new
    ∧ length answers = length (suggestedIssues (issues (this w)))
    ∧ decisions tr = (Attempt <$> safeIssues (issues (this w)))
                     ++ confirmations (suggestedIssues (issues (this w))) answers
    ∧ pushed_for (safeIssues (issues (this w))
                  ++ accepted (suggestedIssues (issues (this w))) answers) new.
Proof.
  unfold applyFixes. rewrite bind_run. unfold console_log at 1. unfold emit.
  set (w0 := mkWorld _ _ _ _).
  assert (X0 : extends w w0 [Console LogApplying] []) by apply extends_emit.
  rewrite bind_run. unfold get_this at 1. cbv beta iota.
  assert (I0 : issues (this w0) = issues (this w)) by done.
  rewrite I0. fold (safeIssues (issues (this w))) (suggestedIssues (issues (this w))).
  rewrite bind_run.
  destruct (for_applyFix_run (safeIssues (issues (this w))) w0)
    as (tr1 & new1 & w1 & E1 & X1 & D1 & P1).
  rewrite E1, bind_run.
  assert (∃ answers tr2 new2 w2,
    (if bool_decide (0 < length (suggestedIssues (issues (this w))))
     then presentSuggestedFixes H (suggestedIssues (issues (this w)))
     else mret ()) w1 = (Ok (), w2)
    ∧ extends w1 w2 tr2 new2
    ∧ length answers = length (suggestedIssues (issues (this w)))
    ∧ decisions tr2 = confirmations (suggestedIssues (issues (this w))) answers
    ∧ pushed_for (accepted (suggestedIssues (issues (this w))) answers) new2)
    as (ans & tr2 & new2 & w2 & E2 & X2 & L2 & D2 & P2).
  { case_bool_decide as Hlen.
    - unfold presentSuggestedFixes. rewrite bind_run. unfold console_log, emit.
      set (w1' := mkWorld _ _ _ _).
      destruct (presentSuggestedFixes_loop_run (suggestedIssues (issues (this w))) w1')
        as (ans & tr2 & new2 & w2 & E2 & X2 & L2 & D2 & P2).
      exists ans, ([Console LogSuggestedHeader] ++ tr2), ([] ++ new2), w2.
      split_and!; [done| |done|by rewrite decisions_app|done].
      eapply extends_trans; [apply extends_emit|done].
    - destruct (suggestedIssues (issues (this w))); [|simpl in Hlen; lia].
      exists [], [], [], w1. split_and!; auto using extends_refl, pushed_for_nil. }
  rewrite E2, bind_run. unfold get_this at 1. cbv beta iota.
  rewrite bind_run. unfold console_log, emit, mret, JS_ret.
  assert (X : extends w w2 (([Console LogApplying] ++ tr1) ++ tr2) (([] ++ new1) ++ new2)).
  { eapply extends_trans; [|done]. by eapply extends_trans. }
  destruct X as (T & Hh & Tr). simpl in T.
  exists ans, ((([Console LogApplying] ++ tr1) ++ tr2)
               ++ [Console (LogApplied (length (appliedFixes (this w2))))]),
         (new1 ++ new2),
         (mkWorld (this w2) (heap w2)
            (trace w2 ++ [Console (LogApplied (length (appliedFixes (this w2))))])
            (env w2)).
  split_and!.
  - rewrite T. done.
  - unfold extends. simpl. rewrite T, Hh, Tr. by rewrite <- !app_assoc.
  - done.
  - rewrite !decisions_app, D1, D2. simpl. by rewrite app_nil_r.
  - by apply pushed_for_app.
Qed.

Lemma attempts_decisions (tr : list Event) : attempts (decisions tr) = attempts tr.
Proof. induction tr as [|ev tr IH]; [done|]. destruct ev; simpl; congruence. Qed.

Lemma attempts_app (l1 l2 : list Event) : attempts (l1 ++ l2) = attempts l1 ++ attempts l2.
Proof. induction l1 as [|ev l1 IH]; [done|]. destruct ev; simpl; congruence. Qed.

Lemma attempts_Attempt (l : list Finding) : attempts (Attempt <$> l) = l.
Proof. induction l as [|i l IH]; [done|]. rewrite fmap_cons. simpl. by rewrite IH. Qed.

Lemma attempts_confirmations (l : list Finding) (answers : list bool) :
  attempts (confirmations l answers) = accepted l answers.
Proof.
  revert answers. induction l as [|i l IH]; intros [|b answers]; try done.
  simpl. rewrite attempts_app, IH. by destruct b.
Qed.

Lemma accepted_sublist (l : list Finding) (answers : list bool) :
  accepted l answers `sublist_of` l.
Proof.
  revert answers. induction l as [|i l IH]; intros [|b answers]; simpl;
    try apply sublist_nil_l.
  destruct b; simpl; [by apply sublist_skip | by apply sublist_cons].
Qed.

(** The two filters of [applyFixes] never take the same element twice. *)
Lemma partition_submseteq (l : list Finding) : safeIssues l ++ suggestedIssues l ⊆+ l.
Proof.
  unfold safeIssues, suggestedIssues. induction l as [|i l IH]; [done|].
  rewrite !filter_cons. destruct (decide _) as [Hs|Hs], (decide _) as [Hg|Hg].
  - apply Is_true_true, leb_not_ltb in Hs. apply Is_true_true in Hg. congruence.
  - simpl. by apply submseteq_skip.
  - rewrite <- Permutation_middle. by apply submseteq_skip.
  - by apply submseteq_cons.
Qed.

(** The attempts of a run of [applyFixes]. *)
Lemma applyFixes_attempts (w : World Env) :
  ∃ answers tr new w',
    applyFixes H w = (Ok (appliedFixes (this w) ++ new), w')
    ∧ extends w w' tr new
    ∧ attempts tr = safeIssues (issues (this w))
                    ++ accepted (suggestedIssues (issues (this w))) answers
    ∧ pushed_for (attempts tr) new.
Proof.
  destruct (applyFixes_run w) as (ans & tr & new & w' & E & X & L & D & P).
  assert (A : attempts tr = safeIssues (issues (this w))
                            ++ accepted (suggestedIssues (issues (this w))) ans).
  { by rewrite <- attempts_decisions, D, attempts_app, attempts_Attempt,
      attempts_confirmations. }
  exists ans, tr, new, w'. by rewrite A.
Qed.

(** ** How the attempts of a run end *)

(** A fix that succeeds: the backup first, then the fix of the registered
    fixer, then the clock; the fix is pushed and reported. *)
Lemma applyFix_success (i : Finding) (w : World Env) (fixer : FixerClass)
    (r : FixResult) (e1 e2 : Env) :
  backed_up H i w e1 →
  Map.get (fixers (this w)) (category i) = Some fixer →
  fixer_fix H fixer i e1 = (inl r, e2) → success r = true →
  applyFix H i w
  = (Ok (), mkWorld (with_applied (this w) [mkApplied i r (Date_toISOString H e2).1])
                    (heap w)
                    (trace w ++ [Attempt i; Console (LogFixed (description i) (filePath i))])
                    (Date_toISOString H e2).2).
Proof.
  destruct w as [[c fx iss afs] hp tr0 e]. unfold backed_up. simpl. intros Hb Hg Hf Hs.
  destruct c as [c|]; [|done]. simpl in Hb.
  unfold applyFix, try_catch, mbind, JS_bind, emit, get_this, ext, throw, mret, JS_ret,
    push_appliedFix, set_this, console_log, emit, with_applied; simpl. rewrite Hg.
  destruct (truthy (c !! "backup_before_fix")); simpl.
  - rewrite Hb. simpl. rewrite Hf. simpl. rewrite Hs. simpl.
    destruct (Date_toISOString H e2) as [t e3]. simpl. by rewrite <- app_assoc.
  - subst e1. rewrite Hf. simpl. rewrite Hs. simpl.
    destruct (Date_toISOString H e2) as [t e3]. simpl. by rewrite <- app_assoc.
Qed.

(** A fix whose result is no success: it is reported as failed, and nothing
    is pushed. *)
Lemma applyFix_failure (i : Finding) (w : World Env) (fixer : FixerClass)
    (r : FixResult) (e1 e2 : Env) :
  backed_up H i w e1 →
  Map.get (fixers (this w)) (category i) = Some fixer →
  fixer_fix H fixer i e1 = (inl r, e2) → success r = false →
  applyFix H i w
  = (Ok (), mkWorld (this w) (heap w)
                    (trace w ++ [Attempt i; Console (LogFailed (description i))]) e2).
Proof.
  destruct w as [[c fx iss afs] hp tr0 e]. unfold backed_up. simpl. intros Hb Hg Hf Hs.
  destruct c as [c|]; [|done]. simpl in Hb.
  unfold applyFix, try_catch, mbind, JS_bind, emit, get_this, ext, throw, mret, JS_ret,
    console_log, emit; simpl. rewrite Hg.
  destruct (truthy (c !! "backup_before_fix")); simpl.
  - rewrite Hb. simpl. rewrite Hf. simpl. rewrite Hs. simpl. by rewrite <- app_assoc.
  - subst e1. rewrite Hf. simpl. rewrite Hs. simpl. by rewrite <- app_assoc.
Qed.

(** A fix that throws: the exception is caught and reported, and nothing is
    pushed. *)
Lemma applyFix_exception (i : Finding) (w : World Env) (fixer : FixerClass)
    (message : string) (e1 e2 : Env) :
  backed_up H i w e1 →
  Map.get (fixers (this w)) (category i) = Some fixer →
  fixer_fix H fixer i e1 = (inr message, e2) →
  applyFix H i w
  = (Ok (), mkWorld (this w) (heap w)
                    (trace w ++ [Attempt i; Console (LogError message)]) e2).
Proof.
  destruct w as [[c fx iss afs] hp tr0 e]. unfold backed_up. simpl. intros Hb Hg Hf.
  destruct c as [c|]; [|done]. simpl in Hb.
  unfold applyFix, try_catch, mbind, JS_bind, emit, get_this, ext, throw, mret, JS_ret,
    console_log, emit; simpl. rewrite Hg.
  destruct (truthy (c !! "backup_before_fix")); simpl.
  - rewrite Hb. simpl. rewrite Hf. simpl. by rewrite <- app_assoc.
  - subst e1. rewrite Hf. simpl. by rewrite <- app_assoc.
Qed.

Lemma fixes_reported_app (tr1 tr2 : list Event) :
  fixes_reported (tr1 ++ tr2) = fixes_reported tr1 + fixes_reported tr2.
Proof. unfold fixes_reported. by rewrite filter_app, length_app. Qed.

Lemma failures_reported_app (tr1 tr2 : list Event) :
  failures_reported (tr1 ++ tr2) = failures_reported tr1 + failures_reported tr2.
Proof. unfold failures_reported. by rewrite filter_app, length_app. Qed.

Lemma accounted_nil (a : AutoFixer) : accounted H a [] [].
Proof. by split_and!. Qed.

Lemma accounted_app (a : AutoFixer) (tr1 tr2 : list Event) (n1 n2 : list AppliedFix) :
  accounted H a tr1 n1 → accounted H a tr2 n2 → accounted H a (tr1 ++ tr2) (n1 ++ n2).
Proof.
  intros (F1 & X1 & L1) (F2 & X2 & L2). split_and!.
  - by apply Forall_app.
  - rewrite fixes_reported_app, length_app. lia.
  - rewrite failures_reported_app, attempts_app, !length_app. lia.
Qed.

(** The account looks at the registry of the instance only. *)
Lemma accounted_extends (w w' : World Env) (tr0 : list Event) (new0 : list AppliedFix)
    (tr : list Event) (new : list AppliedFix) :
  extends w w' tr0 new0 → accounted H (this w') tr new → accounted H (this w) tr new.
Proof. intros (T & _ & _). by rewrite T. Qed.

(** An attempt gets as far as the fix of a registered fixer, or it ends
    on a caught exception: no configuration to read, a backup that throws,
    or no fixer under the category. *)
Lemma applyFix_before_fix (i : Finding) (w : World Env) :
  (∃ e1 fixer, backed_up H i w e1
               ∧ Map.get (fixers (this w)) (category i) = Some fixer)
  ∨ ∃ message e',
      applyFix H i w
      = (Ok (), mkWorld (this w) (heap w)
                        (trace w ++ [Attempt i; Console (LogError message)]) e').
Proof.
  destruct w as [[c fx iss afs] hp tr0 e]. unfold backed_up.
  unfold applyFix, try_catch, mbind, JS_bind, emit, get_this, ext, throw, mret, JS_ret,
    console_log, emit; simpl.
  destruct c as [c|]; simpl; [|right; eexists _, _; by rewrite <- app_assoc].
  destruct (truthy (c !! "backup_before_fix")); simpl.
  - destruct (createBackup H (filePath i) e) as [[[]|message] e1]; simpl;
      [|right; eexists _, _; by rewrite <- app_assoc].
    destruct (Map.get fx (category i)) as [fixer|]; simpl;
      [left; by exists e1, fixer|right; eexists _, _; by rewrite <- app_assoc].
  - destruct (Map.get fx (category i)) as [fixer|]; simpl;
      [left; by exists e, fixer|right; eexists _, _; by rewrite <- app_assoc].
Qed.

(** One run of [applyFix], with its account. *)
Lemma applyFix_ending (i : Finding) (w : World Env) :
  ∃ tr new w',
    applyFix H i w = (Ok (), w') ∧ extends w w' tr new ∧ accounted H (this w) tr new.
Proof.
  assert (Q : ∀ l, reports_fix (Console l) = false → reports_failure (Console l) = true →
              ∀ e', ∃ tr new w',
                (Ok (), mkWorld (this w) (heap w) (trace w ++ [Attempt i; Console l]) e')
                = (Ok (), w') :> Outcome () * World Env
                ∧ extends w w' tr new ∧ accounted H (this w) tr new).
  { intros l Hx Hl e'. eexists [Attempt i; Console l], [], _. split; [done|].
    split; [unfold extends, with_applied; simpl; rewrite app_nil_r; by destruct w as [[]]|].
    split_and!; [done| |].
    - unfold fixes_reported. rewrite filter_cons_False by (simpl; intros []).
      rewrite filter_cons_False; [done|rewrite Hx; intros []].
    - unfold failures_reported. rewrite filter_cons_False by (simpl; intros []).
      rewrite filter_cons_True; [done|by rewrite Hl]. }
  destruct (applyFix_before_fix i w) as [(e1 & fixer & B & Eg)|(message & e' & ->)];
    [|by apply Q].
  destruct (fixer_fix H fixer i e1) as [[r|message] e2] eqn:Ef.
  2:{ rewrite (applyFix_exception i w fixer message e1 e2 B Eg Ef). by apply Q. }
  destruct (success r) eqn:Es.
  2:{ rewrite (applyFix_failure i w fixer r e1 e2 B Eg Ef Es). by apply Q. }
  rewrite (applyFix_success i w fixer r e1 e2 B Eg Ef Es).
  eexists [Attempt i; Console (LogFixed (description i) (filePath i))],
          [mkApplied i r (Date_toISOString H e2).1], _.
  split; [done|]. split; [done|]. split_and!; [|done|done].
  constructor; [|done]. split; [done|]. exists fixer, e1. simpl. by rewrite Ef.
Qed.

Lemma for_applyFix_ending (l : list Finding) (w : World Env) :
  ∃ tr new w',
    for_of l (applyFix H) w = (Ok (), w') ∧ extends w w' tr new
    ∧ accounted H (this w) tr new.
Proof.
  revert w. induction l as [|i l IH]; intros w.
  - exists [], [], w. split_and!; auto using extends_refl, accounted_nil.
  - destruct (applyFix_ending i w) as (tr1 & new1 & w1 & E1 & X1 & A1).
    destruct (IH w1) as (tr2 & new2 & w2 & E2 & X2 & A2).
    exists (tr1 ++ tr2), (new1 ++ new2), w2. split.
    { simpl. unfold mbind, JS_bind. by rewrite E1. }
    split; [by eapply extends_trans|].
    apply accounted_app; [done|by eapply accounted_extends].
Qed.

Lemma presentSuggestedFix_ending (i : Finding) (w : World Env) :
  ∃ tr new w',
    presentSuggestedFix H i w = (Ok (), w') ∧ extends w w' tr new
    ∧ accounted H (this w) tr new.
Proof.
  unfold presentSuggestedFix, console_log, emit.
  do 4 (rewrite bind_run; cbv beta iota). simpl.
  destruct (promptUser H _ (env w)) as [b e'] eqn:Eb.
  set (w0 := mkWorld _ _ _ e').
  pose (tr0 := [Console (LogDescription (description i));
                Console (LogFile (filePath i));
                Console (LogConfidence (confidence i));
                Prompt question b]).
  assert (X0 : extends w w0 tr0 []).
  { unfold extends, with_applied, w0. simpl. rewrite app_nil_r, <- !app_assoc.
    by destruct w as [[]]. }
  assert (A0 : accounted H (this w) tr0 []) by by split_and!.
  destruct b.
  - destruct (applyFix_ending i w0) as (tr1 & new1 & w1 & E1 & X1 & A1).
    exists (tr0 ++ tr1), ([] ++ new1), w1.
    split_and!; [done|by eapply extends_trans|].
    apply accounted_app; [done|by eapply accounted_extends].
  - by exists tr0, [], w0.
Qed.

Lemma presentSuggestedFixes_loop_ending (l : list Finding) (w : World Env) :
  ∃ tr new w',
    for_of l (presentSuggestedFix H) w = (Ok (), w') ∧ extends w w' tr new
    ∧ accounted H (this w) tr new.
Proof.
  revert w. induction l as [|i l IH]; intros w.
  - exists [], [], w. split_and!; auto using extends_refl, accounted_nil.
  - destruct (presentSuggestedFix_ending i w) as (tr1 & new1 & w1 & E1 & X1 & A1).
    destruct (IH w1) as (tr2 & new2 & w2 & E2 & X2 & A2).
    exists (tr1 ++ tr2), (new1 ++ new2), w2. split_and!.
    + simpl. by rewrite bind_run, E1.
    + by eapply extends_trans.
    + apply accounted_app; [done|by eapply accounted_extends].
Qed.

(** One run of [applyFixes], with its account. *)
Lemma applyFixes_ending (w : World Env) :
  ∃ tr new w',
    applyFixes H w = (Ok (appliedFixes (this w) ++ new), w')
    ∧ extends w w' tr new ∧ accounted H (this w) tr new.
Proof.
  unfold applyFixes. rewrite bind_run. unfold console_log at 1. unfold emit.
  set (w0 := mkWorld _ _ _ _).
  assert (X0 : extends w w0 [Console LogApplying] []) by apply extends_emit.
  assert (A0 : accounted H (this w) [Console LogApplying] []) by by split_and!.
  rewrite bind_run. unfold get_this at 1. cbv beta iota.
  assert (I0 : issues (this w0) = issues (this w)) by done.
  rewrite I0. fold (safeIssues (issues (this w))) (suggestedIssues (issues (this w))).
  rewrite bind_run.
  destruct (for_applyFix_ending (safeIssues (issues (this w))) w0)
    as (tr1 & new1 & w1 & E1 & X1 & A1).
  rewrite E1, bind_run.
  assert (∃ tr2 new2 w2,
    (if bool_decide (0 < length (suggestedIssues (issues (this w))))
     then presentSuggestedFixes H (suggestedIssues (issues (this w)))
     else mret ()) w1 = (Ok (), w2)
    ∧ extends w1 w2 tr2 new2 ∧ accounted H (this w1) tr2 new2)
    as (tr2 & new2 & w2 & E2 & X2 & A2).
  { case_bool_decide as Hlen.
    - unfold presentSuggestedFixes. rewrite bind_run. unfold console_log, emit.
      set (w1' := mkWorld _ _ _ _).
      destruct (presentSuggestedFixes_loop_ending (suggestedIssues (issues (this w))) w1')
        as (tr2 & new2 & w2 & E2 & X2 & A2).
      exists ([Console LogSuggestedHeader] ++ tr2), ([] ++ new2), w2.
      split_and!; [done| |].
      + eapply extends_trans; [apply extends_emit|done].
      + apply accounted_app; [by split_and!|done].
    - exists [], [], w1. split_and!; auto using extends_refl, accounted_nil. }
  rewrite E2, bind_run. unfold get_this at 1. cbv beta iota.
  rewrite bind_run. unfold console_log, emit, mret, JS_ret.
  assert (X : extends w w2 (([Console LogApplying] ++ tr1) ++ tr2) (([] ++ new1) ++ new2)).
  { eapply extends_trans; [|done]. by eapply extends_trans. }
  assert (A : accounted H (this w) (([Console LogApplying] ++ tr1) ++ tr2)
                        (([] ++ new1) ++ new2)).
  { apply accounted_app.
    - apply accounted_app; [done|exact (accounted_extends _ _ _ _ _ _ X0 A1)].
    - exact (accounted_extends _ _ _ _ _ _ (extends_trans _ _ _ _ _ _ _ X0 X1) A2). }
  destruct X as (T & Hh & Tr). simpl in T.
  exists ((([Console LogApplying] ++ tr1) ++ tr2)
          ++ [Console (LogApplied (length (appliedFixes (this w2))))]),
         (new1 ++ new2),
         (mkWorld (this w2) (heap w2)
            (trace w2 ++ [Console (LogApplied (length (appliedFixes (this w2))))])
            (env w2)).
  split_and!.
  - rewrite T. done.
  - unfold extends. simpl. rewrite T, Hh, Tr. by rewrite <- !app_assoc.
  - rewrite <- (app_nil_r (new1 ++ new2)). apply accounted_app; [done|by split_and!].
Qed.

(** A run of [applyFixes] with its attempts and its account. *)
Lemma applyFixes_account (w : World Env) :
  ∃ answers tr new w',
    applyFixes H w = (Ok (appliedFixes (this w) ++ new), w')
    ∧ extends w w' tr new
    ∧ length answers = length (suggestedIssues (issues (this w)))
    ∧ decisions tr = (Attempt <$> safeIssues (issues (this w)))
                     ++ confirmations (suggestedIssues (issues (this w))) answers
    ∧ attempts tr = safeIssues (issues (this w))
                    ++ accepted (suggestedIssues (issues (this w))) answers
    ∧ pushed_for (attempts tr) new
    ∧ accounted H (this w) tr new.
Proof.
  destruct (applyFixes_run w) as (ans & tr & new & w' & E & X & L & D & P).
  destruct (applyFixes_ending w) as (tr' & new' & w'' & E' & X' & A).
  rewrite E in E'. injection E' as En Ew. apply app_inv_head in En. subst new' w''.
  destruct X as (T & Hh & Tr). destruct X' as (_ & _ & Tr').
  rewrite Tr in Tr'. apply app_inv_head in Tr'. subst tr'.
  assert (At : attempts tr = safeIssues (issues (this w))
                             ++ accepted (suggestedIssues (issues (this w))) ans).
  { by rewrite <- attempts_decisions, D, attempts_app, attempts_Attempt,
      attempts_confirmations. }
  exists ans, tr, new, w'. split_and!; try done. by rewrite At.
Qed.


(** C6, as the code has it. A fix that fails is reported on the console
    and not recorded. Where the fixer returns a result that is no success,
    [applyFix] writes the line of a failed fix, pushes nothing and returns
    normally, the host being as the fixer left it; where the fixer throws,
    the exception is caught and written on the console, and nothing is
    pushed. So [applyFixes] returns normally, having attempted every finding
    at or above 0.9 and no finding more often than it occurs in [issues] (no
    retry); every applied fix it pushed is a success its fixer returned, of
    an attempted finding; it reports as many fixes as it pushed; and every
    attempt that pushed nothing reports a failure. *)
Theorem applyFixes_tolerates_failures (w : World Env) :
  (∃ tr new w',
     applyFixes H w = (Ok (appliedFixes (this w) ++ new), w')
     ∧ trace w' = trace w ++ tr
     ∧ safeIssues (issues (this w)) `sublist_of` attempts tr
     ∧ attempts tr ⊆+ issues (this w)
     ∧ appliedFixes (this w') = appliedFixes (this w) ++ new
     ∧ Forall (λ f, success (result f) = true) new
     ∧ Forall (returned_by H (this w)) new
     ∧ issue <$> new `sublist_of` attempts tr
     ∧ fixes_reported tr = length new
     ∧ failures_reported tr + length new = length (attempts tr))
  ∧ (∀ i fixer r e1 e2,
       backed_up H i w e1 →
       Map.get (fixers (this w)) (category i) = Some fixer →
       fixer_fix H fixer i e1 = (inl r, e2) → success r = false →
       applyFix H i w
       = (Ok (), mkWorld (this w) (heap w)
                         (trace w ++ [Attempt i; Console (LogFailed (description i))]) e2))
  ∧ (∀ i fixer message e1 e2,
       backed_up H i w e1 →
       Map.get (fixers (this w)) (category i) = Some fixer →
       fixer_fix H fixer i e1 = (inr message, e2) →
       applyFix H i w
       = (Ok (), mkWorld (this w) (heap w)
                         (trace w ++ [Attempt i; Console (LogError message)]) e2)).
Proof.
  split_and!;
    [|intros i fixer r e1 e2; apply applyFix_failure
     |intros i fixer message e1 e2; apply applyFix_exception].
  destruct (applyFixes_account w)
    as (ans & tr & new & w' & E & (T & _ & Tr) & _ & _ & A & (F & S) & (R & Xf & Xl)).
  exists tr, new, w'. split_and!; try done.
  - rewrite A. by apply sublist_inserts_r.
  - rewrite A. etrans; [|apply partition_submseteq].
    apply sublist_submseteq, sublist_app; [done|apply accepted_sublist].
  - by rewrite T.
Qed.

(** ** The detectors *)

(** The loop over the object at [re] is the loop over its state: it reads
    and writes that object only. *)
Lemma while_exec_run (fuel re : nat) (content : string) (body : MatchResult → Finding)
    (acc : list Finding) (w : World Env) (o : RegExpObj) :
  heap w !! re = Some o →
  while_exec fuel re content body acc w
  = (match (matches fuel o content).1 with
     | Some ms => Ok (acc ++ (body <$> ms))
     | None => Diverge
     end,
     mkWorld (this w) (<[re := (matches fuel o content).2]> (heap w)) (trace w) (env w)).
Proof.
  revert acc w o. induction fuel as [|fuel IH]; intros acc w o Ho.
  - simpl. unfold diverge. rewrite list_insert_id by done. by destruct w.
  - simpl. rewrite bind_run. unfold RegExp_exec. rewrite Ho.
    destruct (exec o content) as [[m|] o'] eqn:Ex.
    + rewrite (IH _ _ o').
      2:{ simpl. apply list_lookup_insert_eq. by eapply lookup_lt_Some. }
      simpl. rewrite list_insert_insert_eq.
      destruct (matches fuel o' content) as [[ms|] o'']; simpl; [|done].
      by rewrite <- app_assoc.
    + simpl. unfold mret, JS_ret. by rewrite app_nil_r.
Qed.

(** A detector's loop over a fresh object: it ends, and its findings are
    those of the matches of the pattern in the content. *)
Lemma detector_run (r : regex) (content : string) (body : MatchResult → Finding)
    (w : World Env) :
  nonempty r = true →
  ∃ ms o',
    matches (S (String.length content)) (mkRegExp r 0) content = (Some ms, o')
    ∧ (re ← new_RegExp r; while_exec (S (String.length content)) re content body []) w
      = (Ok (body <$> ms), mkWorld (this w) (heap w ++ [o']) (trace w) (env w)).
Proof.
  intros N.
  destruct (matches_total (S (String.length content)) (mkRegExp r 0) content)
    as [ms Hms]; [done|simpl; lia|].
  destruct (matches _ _ content) as [ms' o'] eqn:Em. simpl in Hms. subst ms'.
  exists ms, o'. split; [done|].
  rewrite bind_run. unfold new_RegExp.
  erewrite while_exec_run.
  2:{ simpl. by rewrite lookup_app_r, Nat.sub_diag. }
  rewrite Em. simpl. f_equal. f_equal.
  by rewrite insert_app_r_alt, Nat.sub_diag.
Qed.

Lemma findMissingKeys_run (content filePath : string) (w : World Env) :
  ∃ ms o',
    matches (S (String.length content)) (mkRegExp mapPattern 0) content = (Some ms, o')
    ∧ findMissingKeys H content filePath w
      = (Ok (missing_key H content filePath <$> ms),
         mkWorld (this w) (heap w ++ [o']) (trace w) (env w)).
Proof. by apply detector_run. Qed.

Lemma findMissingErrorHandling_run (content filePath : string) (w : World Env) :
  ∃ ms o',
    matches (S (String.length content)) (mkRegExp supabasePattern 0) content = (Some ms, o')
    ∧ findMissingErrorHandling H content filePath w
      = (Ok (missing_error_handling H content filePath <$> ms),
         mkWorld (this w) (heap w ++ [o']) (trace w) (env w)).
Proof. by apply detector_run. Qed.

Lemma ext_bind_fst {A B} (c : Ext Env A) (f : A → JS Env B) (w1 w2 : World Env) :
  pure_ext c →
  (∀ a w1' w2', (f a w1').1 = (f a w2').1) →
  ((ext c ≫= f) w1).1 = ((ext c ≫= f) w2).1.
Proof.
  intros Hc Hf. rewrite !bind_run. unfold ext.
  specialize (Hc (env w1) (env w2)).
  destruct (c (env w1)) as [[a1|m1] e1], (c (env w2)) as [[a2|m2] e2];
    simpl in Hc; simplify_eq; [apply Hf|done].
Qed.

(** C7. The [analyze] of ReactFixer and of SupabaseFixer is deterministic:
    two calls with the same content and path return the same outcome, the
    same list of findings, whatever the worlds they run in (the heap of
    [RegExp] objects earlier calls left, the instance, the host), provided
    the detectors the document does not define are deterministic too. *)
Theorem analyze_deterministic (content filePath : string) (w1 w2 : World Env) :
  (∀ c p, pure_ext (findHookIssues H c p)) →
  (∀ c p, pure_ext (findStateMutations H c p)) →
  (∀ c p, pure_ext (findMissingAuthChecks H c p)) →
  (∀ c p, pure_ext (findQueryOptimizations H c p)) →
  (ReactFixer_analyze H content filePath w1).1 = (ReactFixer_analyze H content filePath w2).1
  ∧ (SupabaseFixer_analyze H content filePath w1).1
    = (SupabaseFixer_analyze H content filePath w2).1.
Proof.
  intros Hh Hm Ha Hq. split.
  - unfold ReactFixer_analyze. rewrite (bind_run _ _ w1), (bind_run _ _ w2).
    destruct (findMissingKeys_run content filePath w1) as (ms1 & o1 & M1 & ->).
    destruct (findMissingKeys_run content filePath w2) as (ms2 & o2 & M2 & ->).
    assert (ms1 = ms2) as -> by congruence.
    apply ext_bind_fst; [done|]. intros hooks w1' w2'.
    apply ext_bind_fst; [done|]. intros muts w1'' w2''. done.
  - unfold SupabaseFixer_analyze. rewrite (bind_run _ _ w1), (bind_run _ _ w2).
    destruct (findMissingErrorHandling_run content filePath w1) as (ms1 & o1 & M1 & ->).
    destruct (findMissingErrorHandling_run content filePath w2) as (ms2 & o2 & M2 & ->).
    assert (ms1 = ms2) as -> by congruence.
    apply ext_bind_fst; [done|]. intros auths w1' w2'.
    apply ext_bind_fst; [done|]. intros opts w1'' w2''. done.
Qed.

Lemma ext_inv {A} (c : Ext Env A) (w : World Env) (a : A) :
  (ext c w).1 = Ok a → (c (env w)).1 = inl a.
Proof. unfold ext. by destruct (c (env w)) as [[?|?] ?]; intros [= ->]. Qed.

Lemma bind_inv {A B} (m : JS Env A) (f : A → JS Env B) (w : World Env) (b : B) :
  ((m ≫= f) w).1 = Ok b → ∃ a w', m w = (Ok a, w') ∧ (f a w').1 = Ok b.
Proof. rewrite bind_run. destruct (m w) as [[a|e|] w']; [by eauto|done|done]. Qed.

(** C9. Every issue the [analyze] of ReactFixer returns has the category
    react, and every issue the [analyze] of SupabaseFixer returns has the
    category supabase; both are keys [initializeFixers] registers, so the
    lookup [this.fixers.get(issue.category)] of [applyFix] finds a fixer.
    The detectors the document does not define are taken to emit the
    category of their class. *)
Theorem analyze_category_registered (config : option (gmap string JsVal))
    (content filePath : string) (w : World Env) (l : list Finding) (i : Finding) :
  (∀ c p, emits_category "react" (findHookIssues H c p)) →
  (∀ c p, emits_category "react" (findStateMutations H c p)) →
  (∀ c p, emits_category "supabase" (findMissingAuthChecks H c p)) →
  (∀ c p, emits_category "supabase" (findQueryOptimizations H c p)) →
  i ∈ l →
  ((ReactFixer_analyze H content filePath w).1 = Ok l →
     category i = "react"
     ∧ Map.get (fixers (constructor config)) (category i) = Some ReactFixer)
  ∧ ((SupabaseFixer_analyze H content filePath w).1 = Ok l →
     category i = "supabase"
     ∧ Map.get (fixers (constructor config)) (category i) = Some SupabaseFixer).
Proof.
  intros Hh Hm Ha Hq Hi. split; intros E.
  - assert (C : category i = "react"); [|by rewrite C].
    unfold ReactFixer_analyze in E.
    apply bind_inv in E as (keys & w1 & E1 & E).
    apply bind_inv in E as (hooks & w2 & E2 & E).
    apply bind_inv in E as (muts & w3 & E3 & [= <-]).
    destruct (findMissingKeys_run content filePath w) as (ms & o & _ & E1').
    rewrite E1' in E1. injection E1 as <- <-.
    apply (f_equal fst), ext_inv in E2, E3.
    apply elem_of_app in Hi as [Hi|[Hi|Hi]%elem_of_app].
    + apply list_elem_of_fmap in Hi as (m & -> & _). done.
    + by eapply Hh.
    + by eapply Hm.
  - assert (C : category i = "supabase"); [|by rewrite C].
    unfold SupabaseFixer_analyze in E.
    apply bind_inv in E as (errs & w1 & E1 & E).
    apply bind_inv in E as (auths & w2 & E2 & E).
    apply bind_inv in E as (opts & w3 & E3 & [= <-]).
    destruct (findMissingErrorHandling_run content filePath w) as (ms & o & _ & E1').
    rewrite E1' in E1. injection E1 as <- <-.
    apply (f_equal fst), ext_inv in E2, E3.
    apply elem_of_app in Hi as [Hi|[Hi|Hi]%elem_of_app].
    + apply list_elem_of_fmap in Hi as (m & -> & _). done.
    + by eapply Ha.
    + by eapply Hq.
Qed.

(** ** The list of issues only grows *)

Lemma grows_refl (w : World Env) : grows w w.
Proof. exists []. rewrite app_nil_r. by destruct w as [[]]. Qed.

Lemma grows_trans (w1 w2 w3 : World Env) : grows w1 w2 → grows w2 w3 → grows w1 w3.
Proof.
  intros [l1 E1] [l2 E2]. exists (l1 ++ l2). rewrite E2, E1. simpl. by rewrite app_assoc.
Qed.

Lemma grows_same_this (w w' : World Env) : this w' = this w → grows w w'.
Proof. intros E. exists []. rewrite E, app_nil_r. by destruct (this w). Qed.

Lemma appends_ret {A} (a : A) : appends (mret a).
Proof. intros w. apply grows_refl. Qed.

Lemma appends_bind {A B} (m : JS Env A) (f : A → JS Env B) :
  appends m → (∀ a, appends (f a)) → appends (m ≫= f).
Proof.
  intros Hm Hf w. rewrite bind_run. specialize (Hm w).
  destruct (m w) as [[a|e|] w']; simpl in *; [|done|done].
  eapply grows_trans; [done|apply Hf].
Qed.

Lemma appends_ext {A} (c : Ext Env A) : appends (ext c).
Proof.
  intros w. unfold ext. by destruct (c (env w)) as [[?|?] ?]; apply grows_same_this.
Qed.

Lemma appends_emit (ev : Event) : appends (emit ev).
Proof. intros w. by apply grows_same_this. Qed.

Lemma appends_get_this : appends get_this.
Proof. intros w. apply grows_refl. Qed.

Lemma appends_for_of {A} (l : list A) (body : A → JS Env ()) :
  (∀ x, appends (body x)) → appends (for_of l body).
Proof.
  intros Hb. induction l as [|x l IH]; simpl; [apply appends_ret|].
  apply appends_bind; [apply Hb|done].
Qed.

Lemma appends_push_issues (l : list Finding) : appends (push_issues l).
Proof. intros w. by exists l. Qed.

Lemma appends_detector (r : regex) (content : string) (body : MatchResult → Finding) :
  nonempty r = true →
  appends (re ← new_RegExp r; while_exec (S (String.length content)) re content body []).
Proof.
  intros N w. destruct (detector_run r content body w N) as (ms & o & _ & ->).
  by apply grows_same_this.
Qed.

Lemma appends_analyze (f : FixerClass) (content filePath : string) :
  appends (analyze H f content filePath).
Proof.
  destruct f; simpl; try apply appends_ext.
  - apply appends_bind; [by apply appends_detector|]. intros keys.
    apply appends_bind; [apply appends_ext|]. intros hooks.
    apply appends_bind; [apply appends_ext|]. intros muts. apply appends_ret.
  - apply appends_bind; [by apply appends_detector|]. intros errs.
    apply appends_bind; [apply appends_ext|]. intros auths.
    apply appends_bind; [apply appends_ext|]. intros opts. apply appends_ret.
Qed.

Lemma appends_analyzeFile (filePath : string) : appends (analyzeFile H filePath).
Proof.
  apply appends_bind; [apply appends_ext|]. intros content.
  apply appends_bind; [apply appends_get_this|]. intros a.
  apply appends_for_of. intros [name fixer]. simpl.
  destruct (canHandle H fixer _); [|apply appends_ret].
  apply appends_bind; [apply appends_analyze|]. intros l. apply appends_push_issues.
Qed.

Lemma appends_analyzeProject (projectPath : string) : appends (analyzeProject H projectPath).
Proof.
  apply appends_bind; [apply appends_emit|]. intros _.
  apply appends_bind; [apply appends_ext|]. intros files.
  apply appends_bind; [apply appends_for_of, appends_analyzeFile|]. intros _.
  apply appends_bind; [apply appends_get_this|]. intros a.
  apply appends_bind; [apply appends_emit|]. intros _. apply appends_ret.
Qed.

Lemma grows_prefix (w w' : World Env) :
  grows w w' → issues (this w) `prefix_of` issues (this w').
Proof. intros [l ->]. by exists l. Qed.

Lemma safeIssues_prefix (l1 l2 : list Finding) :
  l1 `prefix_of` l2 → safeIssues l1 `sublist_of` safeIssues l2.
Proof.
  intros [k ->]. unfold safeIssues. rewrite filter_app. by apply sublist_inserts_r.
Qed.

(** C10. The list of issues is only ever appended to: however they end,
    [analyzeFile] and [analyzeProject] leave the earlier issues as a prefix
    of the list. So after a first [analyzeProject], an [applyFixes] and a
    second [analyzeProject] on the same instance, the findings of the first
    call are a prefix of the list, and the next [applyFixes] attempts again
    the findings at or above 0.9 that the first [applyFixes] attempted. *)
Theorem issues_only_appended (path1 path2 : string) (w : World Env) :
  let w1 := (analyzeProject H path1 w).2 in
  let w2 := (applyFixes H w1).2 in
  let w3 := (analyzeProject H path2 w2).2 in
  let w4 := (applyFixes H w3).2 in
  (∀ filePath, issues (this w) `prefix_of` issues (this (analyzeFile H filePath w).2))
  ∧ issues (this w) `prefix_of` issues (this w1)
  ∧ issues (this w1) `prefix_of` issues (this (analyzeProject H path2 w1).2)
  ∧ issues (this w1) `prefix_of` issues (this w3)
  ∧ ∃ tr2 tr4,
      trace w2 = trace w1 ++ tr2 ∧ trace w4 = trace w3 ++ tr4
      ∧ safeIssues (issues (this w1)) `sublist_of` attempts tr2
      ∧ safeIssues (issues (this w1)) `sublist_of` attempts tr4.
Proof.
  intros w1 w2 w3 w4.
  destruct (applyFixes_attempts w1) as (ans2 & tr2 & new2 & w2' & E2 & (I2 & _ & T2) & A2 & _).
  destruct (applyFixes_attempts w3) as (ans4 & tr4 & new4 & w4' & E4 & (_ & _ & T4) & A4 & _).
  assert (w2' = w2) as -> by (unfold w2; by rewrite E2).
  assert (w4' = w4) as -> by (unfold w4; by rewrite E4).
  apply (f_equal issues) in I2. simpl in I2.
  assert (P3 : issues (this w1) `prefix_of` issues (this w3)).
  { rewrite <- I2. apply grows_prefix, appends_analyzeProject. }
  split_and!.
  - intros filePath. apply grows_prefix, appends_analyzeFile.
  - apply grows_prefix, appends_analyzeProject.
  - apply grows_prefix, appends_analyzeProject.
  - done.
  - exists tr2, tr4. rewrite A2, A4. split_and!; try done.
    + by apply sublist_inserts_r.
    + apply sublist_inserts_r. by apply safeIssues_prefix.
Qed.

(** ** What the configuration can change *)

Section ConfigBlind.
Variable g : option (gmap string JsVal) → option (gmap string JsVal).
Hypothesis g_backup : ∀ c, backup_flag (g c) = backup_flag c.

Lemma blind_ret {A} (a : A) : config_blind g (mret a).
Proof. done. Qed.

Lemma blind_throw {A} (e : string) : config_blind g (throw (A := A) e).
Proof. done. Qed.

Lemma blind_bind {A B} (m : JS Env A) (f : A → JS Env B) :
  config_blind g m → (∀ a, config_blind g (f a)) → config_blind g (m ≫= f).
Proof.
  intros Hm Hf w. rewrite !bind_run, Hm.
  destruct (m w) as [[a|e|] w']; simpl; [apply Hf|done|done].
Qed.

Lemma blind_try_catch {A} (m : JS Env A) (h : string → JS Env A) :
  config_blind g m → (∀ e, config_blind g (h e)) → config_blind g (try_catch m h).
Proof.
  intros Hm Hh w. unfold try_catch. rewrite Hm.
  destruct (m w) as [[a|e|] w']; simpl; [done|apply Hh|done].
Qed.

Lemma blind_ext {A} (c : Ext Env A) : config_blind g (ext c).
Proof. intros w. unfold ext. simpl. by destruct (c (env w)) as [[?|?] ?]. Qed.

Lemma blind_emit (ev : Event) : config_blind g (emit ev).
Proof. done. Qed.

(** Reading [this] is blind when what follows reads the same from the
    reconfigured instance. *)
Lemma blind_get_this {A} (f : AutoFixer → JS Env A) :
  (∀ a, config_blind g (f a)) → (∀ a, f (reconfigure g a) = f a) →
  config_blind g (get_this ≫= f).
Proof. intros Hf Hg w. rewrite !bind_run. simpl. rewrite Hg. apply Hf. Qed.

Lemma blind_for_of {A} (l : list A) (body : A → JS Env ()) :
  (∀ x, config_blind g (body x)) → config_blind g (for_of l body).
Proof.
  intros Hb. induction l as [|x l IH]; simpl; [apply blind_ret|].
  apply blind_bind; [apply Hb|done].
Qed.

Lemma blind_push_issues (l : list Finding) : config_blind g (push_issues l).
Proof. done. Qed.

Lemma blind_push_appliedFix (f : AppliedFix) : config_blind g (push_appliedFix f).
Proof. done. Qed.

Lemma blind_detector (r : regex) (content : string) (body : MatchResult → Finding) :
  nonempty r = true →
  config_blind g (re ← new_RegExp r;
                while_exec (S (String.length content)) re content body []).
Proof.
  intros N w.
  destruct (detector_run r content body w N) as (ms & o & M & ->).
  destruct (detector_run r content body (with_config g w) N) as (ms' & o' & M' & ->).
  rewrite M in M'. by injection M' as <- <-.
Qed.

Lemma blind_analyze (f : FixerClass) (content filePath : string) :
  config_blind g (analyze H f content filePath).
Proof.
  destruct f; simpl; try apply blind_ext.
  - apply blind_bind; [by apply blind_detector|]. intros keys.
    apply blind_bind; [apply blind_ext|]. intros hooks.
    apply blind_bind; [apply blind_ext|]. intros muts. apply blind_ret.
  - apply blind_bind; [by apply blind_detector|]. intros errs.
    apply blind_bind; [apply blind_ext|]. intros auths.
    apply blind_bind; [apply blind_ext|]. intros opts. apply blind_ret.
Qed.

Lemma blind_analyzeFile (filePath : string) : config_blind g (analyzeFile H filePath).
Proof.
  apply blind_bind; [apply blind_ext|]. intros content.
  apply blind_get_this; [|done]. intros a.
  apply blind_for_of. intros [name fixer]. simpl.
  destruct (canHandle H fixer _); [|apply blind_ret].
  apply blind_bind; [apply blind_analyze|]. intros l. apply blind_push_issues.
Qed.

Lemma blind_analyzeProject (projectPath : string) :
  config_blind g (analyzeProject H projectPath).
Proof.
  apply blind_bind; [apply blind_emit|]. intros _.
  apply blind_bind; [apply blind_ext|]. intros files.
  apply blind_bind; [apply blind_for_of, blind_analyzeFile|]. intros _.
  apply blind_get_this; [|done]. intros a.
  apply blind_bind; [apply blind_emit|]. intros _. apply blind_ret.
Qed.

Lemma blind_applyFix (i : Finding) : config_blind g (applyFix H i).
Proof.
  apply blind_bind; [apply blind_emit|]. intros _.
  apply blind_try_catch; [|intros e; apply blind_emit].
  apply blind_get_this.
  - intros a. apply blind_bind.
    { destruct (config a); [apply blind_ret|apply blind_throw]. }
    intros backup. apply blind_bind.
    { destruct backup; [apply blind_ext|apply blind_ret]. }
    intros _. apply blind_bind.
    { destruct (Map.get _ _); [apply blind_ext|apply blind_throw]. }
    intros r. destruct (success r); [|apply blind_emit].
    apply blind_bind; [apply blind_ext|]. intros t.
    apply blind_bind; [apply blind_push_appliedFix|]. intros _. apply blind_emit.
  - intros a. simpl. specialize (g_backup (config a)). unfold backup_flag in g_backup.
    destruct (g (config a)), (config a); simplify_eq/=; by rewrite ?g_backup.
Qed.

Lemma blind_presentSuggestedFix (i : Finding) : config_blind g (presentSuggestedFix H i).
Proof.
  do 3 (apply blind_bind; [apply blind_emit|]; intros _).
  apply blind_bind.
  { intros w. simpl. by destruct (promptUser H _ (env w)). }
  intros [|]; [apply blind_applyFix|apply blind_ret].
Qed.

Lemma blind_applyFixes : config_blind g (applyFixes H).
Proof.
  apply blind_bind; [apply blind_emit|]. intros _.
  apply blind_get_this; [|done]. intros a.
  apply blind_bind; [apply blind_for_of, blind_applyFix|]. intros _.
  apply blind_bind.
  { case_bool_decide; [|apply blind_ret].
    apply blind_bind; [apply blind_emit|]. intros _.
    apply blind_for_of, blind_presentSuggestedFix. }
  intros _. apply blind_get_this; [|done]. intros a'.
  apply blind_bind; [apply blind_emit|]. intros _. apply blind_ret.
Qed.

Lemma blind_generateReport : config_blind g (generateReport H).
Proof.
  apply blind_bind; [apply blind_ext|]. intros t.
  apply blind_get_this; [|done]. intros a. apply blind_ret.
Qed.

(** The programmatic usage under a configuration and under its change. *)
Lemma usage_reconfigured (c : option (gmap string JsVal)) (projectPath : string)
    (w : World Env) :
  usage H (g c) projectPath w
  = ((usage H c projectPath w).1, with_config g (usage H c projectPath w).2).
Proof.
  unfold usage. rewrite (bind_run (set_this (constructor (g c)))), (bind_run (set_this (constructor c))).
  unfold set_this at 1 3. cbv beta iota.
  set (m := analyzeProject H projectPath ≫= _).
  assert (Hm : config_blind g m).
  { apply blind_bind; [apply blind_analyzeProject|]. intros _.
    apply blind_bind; [apply blind_applyFixes|]. intros _. apply blind_generateReport. }
  set (w0 := mkWorld (constructor c) (heap w) (trace w) (env w)).
  change (m (with_config g w0) = ((m w0).1, with_config g (m w0).2)). apply Hm.
Qed.

End ConfigBlind.


(** ** The scenarios *)

(** C4. On [items.map(item => <div>{item.name}</div>)] the missing-key
    detector finds one match, so [analyze] of ReactFixer returns exactly one
    missing-key finding, of category react and confidence 0.95, before the
    findings of its other detectors; its fix turns [.map(item => <div] into
    [.map(item => <div key={index}], and applying it to the text yields the
    same call with the index-based key on the element. *)
Theorem scenarioA_missing_key (filePath : string) (w : World Env) :
  let finding :=
    {| category := "react";
       type := "missing_key";
       description := "Missing key prop in list item";
       filePath := filePath;
       line := getLineNumber H ReactFixer scenarioA 5;
       confidence := 0.95;
       fix_ := {| original := ".map(item => <div";
                  fixed := ".map(item => <div key={index}" |} |} in
  let w' := mkWorld (this w) (heap w ++ [mkRegExp mapPattern 0]) (trace w) (env w) in
  findMissingKeys H scenarioA filePath w = (Ok [finding], w')
  ∧ ReactFixer_analyze H scenarioA filePath w
    = (hooks ← ext (findHookIssues H scenarioA filePath);
       muts ← ext (findStateMutations H scenarioA filePath);
       mret (finding :: hooks ++ muts)) w'
  ∧ Demo.applyReplacement (fix_ finding) scenarioA
    = Some "items.map(item => <div key={index}>{item.name}</div>)".
Proof.
  intros finding w'.
  assert (E : findMissingKeys H scenarioA filePath w = (Ok [finding], w')).
  { destruct (findMissingKeys_run scenarioA filePath w) as (ms & o & M & ->).
    vm_compute in M. by injection M as <- <-. }
  split_and!; [done| |by vm_compute].
  unfold ReactFixer_analyze. by rewrite bind_run, E.
Qed.

(** C3, on the code. A list rendering whose element already carries a key
    is still reported: on [items.map(item => <div key={item.id}>...)] the
    detector returns one missing-key finding, whose fix adds a second key;
    and so it does on the text its own fix produced from the first scenario.
    The lookahead [(?![^>]*key=)] is tried where the tag text has been
    consumed up to its [>], where no [key=] can follow: the pattern matches
    exactly where the pattern without the lookahead does. *)
Theorem keyed_list_still_reported (filePath : string) (w : World Env) :
  let keyed := "items.map(item => <div key={item.id}>{item.name}</div>)" in
  let refixed := "items.map(item => <div key={index}>{item.name}</div>)" in
  (∃ i, (findMissingKeys H keyed filePath w).1 = Ok [i]
        ∧ type i = "missing_key" ∧ confidence i = 0.95%float
        ∧ fix_ i = {| original := ".map(item => <div key={item.id}";
                      fixed := ".map(item => <div key={item.id} key={index}" |})
  ∧ Demo.applyReplacement
      {| original := ".map(item => <div"; fixed := ".map(item => <div key={index}" |}
      scenarioA = Some refixed
  ∧ (∃ i, (findMissingKeys H refixed filePath w).1 = Ok [i]
          ∧ type i = "missing_key" ∧ confidence i = 0.95%float
          ∧ fix_ i = {| original := ".map(item => <div key={index}";
                        fixed := ".map(item => <div key={index} key={index}" |})
  ∧ (∀ content index,
       search mapPattern content index
       = search mapPattern_without_lookahead content index).
Proof.
  intros keyed refixed. split_and!.
  - destruct (findMissingKeys_run keyed filePath w) as (ms & o & M & ->).
    vm_compute in M. injection M as <- <-. by eexists.
  - by vm_compute.
  - destruct (findMissingKeys_run refixed filePath w) as (ms & o & M & ->).
    vm_compute in M. injection M as <- <-. by eexists.
  - apply lookahead_never_rejects.
Qed.

(** C5, on the code. On the text of the second scenario the detector
    returns one finding of confidence 0.9, but its pattern stops at
    [supabase]: the fix puts the check between [supabase] and the rest of
    the call, so the text after the fix destructures [data] and [error]
    from [await supabase] alone and no longer awaits the query. *)
Theorem scenarioB_fix_splits_call (filePath : string) (w : World Env) :
  let finding :=
    {| category := "supabase";
       type := "missing_error_handling";
       description := "Missing error handling for Supabase call";
       filePath := filePath;
       line := getLineNumber H SupabaseFixer scenarioB 0;
       confidence := 0.9;
       fix_ := {| original := "const { data } = await supabase";
                  fixed := "const { data, error } = await supabase"
                           +:+ String "010" "  if (error) throw error" |} |} in
  (findMissingErrorHandling H scenarioB filePath w).1 = Ok [finding]
  ∧ Demo.applyReplacement (fix_ finding) scenarioB
    = Some ("const { data, error } = await supabase"
            +:+ String "010" "  if (error) throw error.from('users').select('*')")
  ∧ (∀ fixed, Demo.applyReplacement (fix_ finding) scenarioB = Some fixed →
       JsString.includes "await supabase.from('users').select('*')" fixed = false).
Proof.
  intros finding. split_and!.
  - destruct (findMissingErrorHandling_run scenarioB filePath w) as (ms & o & M & ->).
    vm_compute in M. by injection M as <- <-.
  - by vm_compute.
  - intros fixed. vm_compute. by intros [= <-].
Qed.

End Runs.

(** ** Runs on the concrete host *)

Import Examples.

(** C2, on the code. With the threshold configured at 0.8, a finding of
    confidence 0.8 is at the threshold, yet [applyFixes] does not apply it
    on its own: it asks, and with the answer no it attempts nothing and
    leaves the file as it is. The limit is the constant 0.9. *)
Theorem configured_threshold_ignored :
  let w := mkWorld (instance_with (Some documented_config) [performance_issue])
                   [] [] app_env in
  let w' := (applyFixes Demo.host w).2 in
  documented_config !! "confidence_threshold" = Some (VNumber 0.8)
  ∧ (0.8 <=? confidence performance_issue)%float = true
  ∧ decisions (trace w') = [Prompt question false]
  ∧ attempts (trace w') = []
  ∧ Demo.files (env w') = Demo.files app_env.
Proof. intros w w'. split_and!; by vm_compute. Qed.


(** C6, against the claim as stated: the fix of a finding whose file has
    changed fails, the failure is written on the console, and no applied
    fix is recorded for it, failed or not. *)
Lemma failed_fix_not_recorded :
  let w := mkWorld (instance_with (Some documented_config) [list_issue])
                   [] [] stale_env in
  let w' := (applyFixes Demo.host w).2 in
  Console (LogFailed "Missing key prop in list item") ∈ trace w'
  ∧ ¬ ∃ f, f ∈ appliedFixes (this w') ∧ issue f = list_issue.
Proof.
  intros w w'. split.
  - assert (E : trace w' = [Console LogApplying; Attempt list_issue;
                            Console (LogFailed "Missing key prop in list item");
                            Console (LogApplied 0)]) by by vm_compute.
    rewrite E. set_solver.
  - assert (E : appliedFixes (this w') = []) by by vm_compute.
    rewrite E. intros (f & Hf & _). by apply elem_of_nil in Hf.
Qed.


(** The finding of the first scenario on a file that has changed since the
    analysis: the backup is made, the fixer finds the text no more, and the
    failure is reported. *)
Lemma applyFixes_tolerates_failures_witness :
  let w := mkWorld (instance_with (Some documented_config) [list_issue]) [] [] stale_env in
  let e1 := (createBackup Demo.host "src/List.jsx" stale_env).2 in
  applyFix Demo.host list_issue w
  = (Ok (),
     mkWorld (this w) []
             [Attempt list_issue; Console (LogFailed "Missing key prop in list item")]
             e1).
Proof.
  intros w e1.
  apply (proj1 (proj2 (applyFixes_tolerates_failures Demo.host w))
           list_issue ReactFixer (mkResult false) e1 e1); by vm_compute.
Defined.


(** The two analyses agree between a fresh world and a used one, on the
    concrete host, whose other detectors find nothing. *)
Lemma analyze_deterministic_witness :
  (ReactFixer_analyze Demo.host scenarioA "src/List.jsx" (Demo.world None project_env)).1
  = (ReactFixer_analyze Demo.host scenarioA "src/List.jsx" used_world).1
  ∧ (SupabaseFixer_analyze Demo.host scenarioA "src/List.jsx" (Demo.world None project_env)).1
    = (SupabaseFixer_analyze Demo.host scenarioA "src/List.jsx" used_world).1.
Proof. apply (analyze_deterministic Demo.host); intros c p e1 e2; reflexivity. Defined.

(** The finding of the first scenario has a registered category. *)
Lemma analyze_category_registered_witness :
  list_issue ∈ [list_issue]
  ∧ ((ReactFixer_analyze Demo.host scenarioA "src/List.jsx" used_world).1 = Ok [list_issue] →
     category list_issue = "react"
     ∧ Map.get (fixers (constructor (Some documented_config))) (category list_issue)
       = Some ReactFixer)
  ∧ ((SupabaseFixer_analyze Demo.host scenarioA "src/List.jsx" used_world).1
     = Ok [list_issue] →
     category list_issue = "supabase"
     ∧ Map.get (fixers (constructor (Some documented_config))) (category list_issue)
       = Some SupabaseFixer).
Proof.
  split; [apply list_elem_of_here|].
  apply (analyze_category_registered Demo.host);
    [intros c p e l i [= <-] Hi; by apply elem_of_nil in Hi ..
    |apply list_elem_of_here].
Defined.

(** * Further properties of the code *)

(** ** Strings *)

Lemma append_cons (c : ascii) (a b : string) : String c a +:+ b = String c (a +:+ b).
Proof. reflexivity. Qed.

Lemma append_nil_l (b : string) : "" +:+ b = b.
Proof. reflexivity. Qed.

Lemma append_nil_r (a : string) : a +:+ "" = a.
Proof. induction a as [|c a IH]; [done|]. by rewrite append_cons, IH. Qed.

Lemma append_assoc (a b c : string) : (a +:+ b) +:+ c = a +:+ (b +:+ c).
Proof. induction a as [|x a IH]; [done|]. rewrite !append_cons. simpl. by rewrite IH. Qed.

Lemma length_append (a b : string) :
  String.length (a +:+ b) = String.length a + String.length b.
Proof. induction a as [|x a IH]; [done|]. rewrite !append_cons. simpl. by rewrite IH. Qed.

Lemma take_append (a b : string) : JsString.take (String.length a) (a +:+ b) = a.
Proof. induction a as [|x a IH]; [by destruct b|]. rewrite append_cons. simpl. by rewrite IH. Qed.

Lemma drop_append (a b : string) : JsString.drop (String.length a) (a +:+ b) = b.
Proof. induction a as [|x a IH]; [done|]. rewrite !append_cons. simpl. by rewrite IH. Qed.

Lemma take_drop (n : nat) (s : string) : JsString.take n s +:+ JsString.drop n s = s.
Proof.
  revert s. induction n as [|n IH]; intros [|c s]; try done.
  simpl. by rewrite append_cons, IH.
Qed.

Lemma consumed_append (pre s' : string) : consumed (pre +:+ s') s' = pre.
Proof.
  unfold consumed. rewrite length_append, Nat.add_sub. apply take_append.
Qed.

Lemma startsWith_append (p b : string) : JsString.startsWith p (p +:+ b) = true.
Proof.
  induction p as [|c p IH]; [done|]. rewrite append_cons. simpl.
  by rewrite Ascii.eqb_refl.
Qed.

Lemma startsWith_inv (p s : string) :
  JsString.startsWith p s = true → ∃ b, s = p +:+ b.
Proof.
  revert s. induction p as [|c p IH]; intros s; simpl; [by eauto|].
  destruct s as [|x s]; [done|]. destruct (Ascii.eqb_spec c x) as [->|]; [|done].
  intros [b ->]%IH. by exists b.
Qed.

(** A text that occurs in a string is found there. *)
Lemma includes_occurs (p a b : string) : JsString.includes p (a +:+ p +:+ b) = true.
Proof.
  unfold JsString.includes. apply bool_decide_eq_true.
  induction a as [|c a IH].
  - rewrite append_nil_l.
    assert (E : JsString.indexOf p (p +:+ b) = Some 0); [|by rewrite E].
    destruct p as [|x p]; [by destruct b|].
    rewrite append_cons. simpl. rewrite Ascii.eqb_refl.
    by rewrite startsWith_append.
  - rewrite append_cons. simpl.
    destruct (JsString.startsWith p _); [by eexists|].
    destruct IH as [n ->]. by eexists.
Qed.

(** A text that is found in a string occurs in it. *)
Lemma includes_inv (p s : string) :
  JsString.includes p s = true → ∃ a b, s = a +:+ p +:+ b.
Proof.
  unfold JsString.includes. intros [n Hn]%bool_decide_eq_true. revert n Hn.
  induction s as [|c s IH]; intros n; simpl.
  - destruct (JsString.startsWith p "") eqn:E; [|done].
    apply startsWith_inv in E as [b E]. intros _. by exists "", b.
  - destruct (JsString.startsWith p (String c s)) eqn:E.
    + apply startsWith_inv in E as [b E]. intros _. by exists "", b.
    + destruct (JsString.indexOf p s) as [k|] eqn:Ek; [|done].
      intros _. destruct (IH k eq_refl) as (a & b & ->). by exists (String c a), b.
Qed.

(** ** The matcher is sound *)

Lemma star_greedy_sound {R} (k : cclass) (s : string) (cont : string → option R) (x : R) :
  star_greedy k s cont = Some x →
  ∃ pre s', s = pre +:+ s' ∧ all_in k pre = true ∧ cont s' = Some x.
Proof.
  induction s as [|c s IH]; simpl.
  - intros E. by exists "", "".
  - destruct (cmatch k c) eqn:Ec; [|intros E; by exists "", (String c s)].
    destruct (star_greedy k s cont) as [y|] eqn:E.
    + intros [= ->]. destruct (IH eq_refl) as (pre & s' & -> & A & E').
      exists (String c pre), s'. simpl. by rewrite Ec, A.
    + intros E'. by exists "", (String c s).
Qed.

(** What a match hands to its continuation is the input less a text of
    the pattern. *)
Lemma rmatch_sound {R} (r : regex) (s : string) (cs : gmap nat string)
    (cont : string → gmap nat string → option R) (x : R) :
  rmatch r s cs cont = Some x →
  ∃ pre s' cs', s = pre +:+ s' ∧ lang r pre ∧ cont s' cs' = Some x.
Proof.
  revert R s cs cont x.
  induction r as [|k|k|k|r1 IH1 r2 IH2|n r1 IH1|r1 IH1]; intros R s cs cont x; simpl.
  - intros E. by exists "", s, cs.
  - destruct s as [|c s]; [done|]. destruct (cmatch k c) eqn:Ec; [|done].
    intros E. exists (String c ""), s, cs. split_and!; [done| |done]. by exists c.
  - intros (pre & s' & -> & A & E)%star_greedy_sound. by exists pre, s', cs.
  - destruct s as [|c s]; [done|]. destruct (cmatch k c) eqn:Ec; [|done].
    intros (pre & s' & -> & A & E)%star_greedy_sound.
    exists (String c pre), s', cs. simpl. rewrite Ec, A. by split_and!.
  - intros (p1 & s1 & cs1 & -> & L1 & E)%IH1.
    apply IH2 in E as (p2 & s2 & cs2 & -> & L2 & E).
    exists (p1 +:+ p2), s2, cs2. rewrite append_assoc. split_and!; [done| |done].
    by exists p1, p2.
  - intros (p1 & s1 & cs1 & -> & L1 & E)%IH1. by exists p1, s1, (<[n:=consumed (p1 +:+ s1) s1]> cs1).
  - destruct (rmatch r1 s cs _); [done|]. intros E. by exists "", s, cs.
Qed.

(** What [search] finds is a match of the pattern in the input. *)
Lemma search_sound (r : regex) (s : string) (i e : nat) (m : MatchResult) :
  search r s i = Some (e, m) →
  lang r (m_0 m)
  ∧ e = m_index m + String.length (m_0 m)
  ∧ ∃ before after, s = before +:+ m_0 m +:+ after
                    ∧ m_index m = i + String.length before.
Proof.
  revert i. induction s as [|c s IH]; intros i; cbn [search].
  - destruct (rmatch r "" ∅ _) as [[s' cs]|] eqn:E; [|done].
    apply rmatch_sound in E as (pre & s1 & cs1 & E & L & [= -> ->]).
    intros [= <- <-]. simpl. rewrite E, consumed_append. split_and!; [done..|].
    exists "", s'. simpl. split; [done|lia].
  - destruct (rmatch r (String c s) ∅ _) as [[s' cs]|] eqn:E.
    + apply rmatch_sound in E as (pre & s1 & cs1 & E & L & [= -> ->]).
      intros [= <- <-]. simpl. rewrite E, consumed_append. split_and!; [done..|].
      exists "", s'. simpl. split; [done|lia].
    + intros (L & -> & before & after & -> & Hi)%IH. split_and!; [done..|].
      exists (String c before), after. simpl. split; [done|lia].
Qed.

(** What [exec] returns is a match of the pattern in the content, at or
    after [lastIndex], and [lastIndex] moves to its end. *)
Lemma exec_sound (o o' : RegExpObj) (content : string) (m : MatchResult) :
  exec o content = (Some m, o') →
  match_of (source o) content m
  ∧ lastIndex o ≤ m_index m
  ∧ o' = mkRegExp (source o) (m_index m + String.length (m_0 m)).
Proof.
  unfold exec. destruct (Nat.ltb_spec (String.length content) (lastIndex o)); [done|].
  destruct (search _ _ _) as [[e m']|] eqn:E; [|done]. intros [= -> <-].
  apply search_sound in E as (L & -> & before & after & E & Hi).
  split_and!; [|lia|done]. split; [done|].
  exists (JsString.take (lastIndex o) content +:+ before), after. split.
  - rewrite append_assoc, <- E. by rewrite take_drop.
  - rewrite length_append, length_take. lia.
Qed.

(** The matches of a loop of [exec] are matches of the pattern in the
    content, from left to right and without overlap. *)
Lemma matches_sound (fuel : nat) (o o' : RegExpObj) (content : string)
    (ms : list MatchResult) :
  matches fuel o content = (Some ms, o') →
  Forall (match_of (source o) content) ms ∧ in_order (lastIndex o) ms.
Proof.
  revert o ms. induction fuel as [|fuel IH]; intros o ms; simpl; [done|].
  destruct (exec o content) as [[m|] o1] eqn:E.
  - apply exec_sound in E as (M & Li & ->).
    destruct (matches fuel _ content) as [[ms'|] o2] eqn:E'; [|done].
    intros [= <- <-]. apply IH in E' as [F O]. simpl in *. split; [by constructor|done].
  - intros [= <- <-]. by split.
Qed.

(** A match stands within the content. *)
Lemma match_of_bound (r : regex) (content : string) (m : MatchResult) :
  match_of r content m → m_index m + String.length (m_0 m) ≤ String.length content.
Proof. intros (_ & before & after & -> & <-). rewrite !length_append. lia. Qed.

Lemma match_of_includes (r : regex) (content : string) (m : MatchResult) :
  match_of r content m → JsString.includes (m_0 m) content = true.
Proof. intros (_ & before & after & -> & _). apply includes_occurs. Qed.

Lemma lang_Lit (s pre : string) : lang (Lit s) pre → pre = s.
Proof.
  revert pre. induction s as [|c s IH]; intros pre; simpl; [done|].
  intros (p1 & p2 & -> & (x & -> & ->%Ascii.eqb_eq) & ->%IH). done.
Qed.

Lemma lang_nonempty (r : regex) (pre : string) :
  nonempty r = true → lang r pre → pre ≠ "".
Proof.
  revert pre. induction r as [|k|k|k|r1 IH1 r2 IH2|n r1 IH1|r1 IH1]; intros pre; simpl;
    try done.
  - by intros _ (c & -> & _).
  - by intros _ [? _].
  - intros [N|N]%orb_true_iff (p1 & p2 & -> & L1 & L2).
    + specialize (IH1 _ N L1). by destruct p1.
    + specialize (IH2 _ N L2). destruct p1; [done|done].
  - auto.
Qed.

(** Matches in order that cannot be empty are at most as many as the
    characters left. *)
Lemma in_order_count (r : regex) (content : string) (from : nat) (ms : list MatchResult) :
  nonempty r = true → Forall (match_of r content) ms → in_order from ms →
  ms = [] ∨ from + length ms ≤ String.length content.
Proof.
  intros N F. revert from. induction F as [|m ms M F IH]; intros from; [by left|].
  intros [Hf O]. right. simpl.
  assert (String.length (m_0 m) ≠ 0).
  { destruct M as [L _]. apply (lang_nonempty _ _ N) in L. by destruct (m_0 m). }
  destruct (IH _ O) as [->|]; [|lia].
  apply match_of_bound in M. simpl. lia.
Qed.

Lemma lang_Seqs_head (s : string) (rs : list regex) (pre : string) :
  lang (Seqs (Lit s :: rs)) pre → ∃ rest, pre = s +:+ rest.
Proof. simpl. intros (p1 & p2 & -> & ->%lang_Lit & _). by eexists. Qed.

Lemma lang_Seqs_last (rs : list regex) (s pre : string) :
  lang (Seqs (rs ++ [Lit s])) pre → ∃ front, pre = front +:+ s.
Proof.
  revert pre. induction rs as [|r rs IH]; intros pre; simpl.
  - intros (p1 & p2 & -> & ->%lang_Lit & ->). exists "". by rewrite append_nil_r.
  - intros (p1 & p2 & -> & _ & [front ->]%IH). exists (p1 +:+ front).
    by rewrite append_assoc.
Qed.

(** ** What the two detectors report *)

Section Detectors.
Context {Env : Type} (H : Host Env).

(** The findings of a detector are as many as its matches, at most one for
    each character of the content. *)
Lemma detector_count (r : regex) (content : string) (ms : list MatchResult) (o' : RegExpObj) :
  nonempty r = true →
  matches (S (String.length content)) (mkRegExp r 0) content = (Some ms, o') →
  Forall (match_of r content) ms ∧ length ms ≤ String.length content.
Proof.
  intros N [F O]%matches_sound. split; [done|].
  destruct (in_order_count r content 0 ms N F O) as [->|]; simpl; lia.
Qed.

(** X1. For every content, [findMissingKeys] returns normally, and every
    finding it returns has the category react, the type missing_key, the
    confidence 0.95 and the path it was given; the original text of its fix
    begins with [.map] and occurs in the content. There are at most as many
    findings as characters, and none when [.map] does not occur in the
    content. *)
Theorem findMissingKeys_findings (content path : string) (w : World Env) :
  ∃ l, (findMissingKeys H content path w).1 = Ok l
       ∧ Forall (λ i, category i = "react" ∧ type i = "missing_key"
                      ∧ confidence i = 0.95%float ∧ filePath i = path
                      ∧ JsString.startsWith ".map" (original (fix_ i)) = true
                      ∧ JsString.includes (original (fix_ i)) content = true) l
       ∧ length l ≤ String.length content
       ∧ (JsString.includes ".map" content = false → l = []).
Proof.
  destruct (findMissingKeys_run H content path w) as (ms & o & M & ->).
  apply detector_count in M as [F Hlen]; [|done].
  exists (missing_key H content path <$> ms).
  assert (G : Forall (λ m, JsString.startsWith ".map" (m_0 m) = true
                           ∧ JsString.includes (m_0 m) content = true) ms).
  { eapply Forall_impl; [exact F|]. intros m M. split; [|by eapply match_of_includes].
    destruct M as [L _]. apply lang_Seqs_head in L as [rest ->].
    apply startsWith_append. }
  split_and!.
  - done.
  - apply Forall_fmap. eapply Forall_impl; [exact G|]. intros m [S I]. by split_and!.
  - by rewrite length_fmap.
  - intros No. destruct ms as [|m ms]; [done|]. exfalso.
    apply Forall_inv in G as [[rest E]%startsWith_inv (a & b & ->)%includes_inv].
    rewrite E, append_assoc, includes_occurs in No. done.
Qed.

(** X2. For every content, [findMissingErrorHandling] returns normally,
    and every finding it returns has the category supabase, the type
    missing_error_handling, the confidence 0.9 and the path it was given;
    the original text of its fix begins with [const], ends with [supabase]
    and occurs in the content. There are at most as many findings as
    characters, and none when [const] or [supabase] does not occur in the
    content. *)
Theorem findMissingErrorHandling_findings (content path : string) (w : World Env) :
  ∃ l, (findMissingErrorHandling H content path w).1 = Ok l
       ∧ Forall (λ i, category i = "supabase" ∧ type i = "missing_error_handling"
                      ∧ confidence i = 0.9%float ∧ filePath i = path
                      ∧ JsString.startsWith "const" (original (fix_ i)) = true
                      ∧ (∃ front, original (fix_ i) = front +:+ "supabase")
                      ∧ JsString.includes (original (fix_ i)) content = true) l
       ∧ length l ≤ String.length content
       ∧ (JsString.includes "const" content = false
          ∨ JsString.includes "supabase" content = false → l = []).
Proof.
  destruct (findMissingErrorHandling_run H content path w) as (ms & o & M & ->).
  apply detector_count in M as [F Hlen]; [|done].
  exists (missing_error_handling H content path <$> ms).
  assert (G : Forall (λ m, JsString.startsWith "const" (m_0 m) = true
                           ∧ (∃ front, m_0 m = front +:+ "supabase")
                           ∧ JsString.includes (m_0 m) content = true) ms).
  { eapply Forall_impl; [exact F|]. intros m M.
    split_and!; [| |by eapply match_of_includes].
    - destruct M as [L _]. apply lang_Seqs_head in L as [rest ->].
      apply startsWith_append.
    - destruct M as [L _].
      by apply (lang_Seqs_last
        [ Lit "const"; Plus CSpace; Lit "{"; Star CSpace; Lit "data"; Star CSpace;
          Lit "}"; Star CSpace; Lit "="; Star CSpace; Lit "await"; Plus CSpace ]) in L. }
  split_and!.
  - done.
  - apply Forall_fmap. eapply Forall_impl; [exact G|]. intros m (S & E & I). by split_and!.
  - by rewrite length_fmap.
  - intros No. destruct ms as [|m ms]; [done|]. exfalso.
    apply Forall_inv in G as ([rest E]%startsWith_inv & [front E'] & (a & b & ->)%includes_inv).
    destruct No as [No|No].
    + rewrite E, append_assoc, includes_occurs in No. done.
    + rewrite E', (append_assoc front), <- (append_assoc a front), includes_occurs in No.
      done.
Qed.

End Detectors.

(** ** The registry of fixers *)

Lemma Map_get_set_eq {V} (m : Map.t V) (k : string) (v : V) :
  Map.get (Map.set k v m) k = Some v.
Proof.
  induction m as [|[k' v'] m IH]; simpl.
  - by rewrite String.eqb_refl.
  - destruct (String.eqb_spec k' k) as [->|Hne]; simpl.
    + by rewrite String.eqb_refl.
    + by apply String.eqb_neq in Hne as ->.
Qed.

Lemma Map_get_set_ne {V} (m : Map.t V) (k k' : string) (v : V) :
  k ≠ k' → Map.get (Map.set k v m) k' = Map.get m k'.
Proof.
  intros Hne. induction m as [|[k0 v0] m IH]; simpl.
  - by apply String.eqb_neq in Hne as ->.
  - destruct (String.eqb_spec k0 k) as [->|Hne0]; simpl.
    + by apply String.eqb_neq in Hne as ->.
    + by rewrite IH.
Qed.

(** Setting a key to the value it has changes nothing, not even the order. *)
Lemma Map_set_same {V} (m : Map.t V) (k : string) (v : V) :
  Map.get m k = Some v → Map.set k v m = m.
Proof.
  induction m as [|[k0 v0] m IH]; simpl; [done|].
  destruct (String.eqb k0 k); [by intros [= ->]|]. intros E. by rewrite IH.
Qed.

(** X3. Whatever the map held before, after [initializeFixers] the keys
    eslint, react, supabase, security and performance map to their fixers
    and every other key maps to what it mapped to before; the other fields
    are untouched, and running [initializeFixers] again changes nothing. *)
Theorem initializeFixers_registry (a : AutoFixer) :
  let a' := initializeFixers a in
  Map.get (fixers a') "eslint" = Some ESLintFixer
  ∧ Map.get (fixers a') "react" = Some ReactFixer
  ∧ Map.get (fixers a') "supabase" = Some SupabaseFixer
  ∧ Map.get (fixers a') "security" = Some SecurityFixer
  ∧ Map.get (fixers a') "performance" = Some PerformanceFixer
  ∧ (∀ k, k ∉ ["eslint"; "react"; "supabase"; "security"; "performance"] →
          Map.get (fixers a') k = Map.get (fixers a) k)
  ∧ config a' = config a ∧ issues a' = issues a ∧ appliedFixes a' = appliedFixes a
  ∧ initializeFixers a' = a'.
Proof.
  intros a'. unfold a', initializeFixers. cbn [fixers config issues appliedFixes].
  split_and!; try done.
  1-5: repeat first [ apply Map_get_set_eq | rewrite Map_get_set_ne by done ].
  - intros k Hk. rewrite !Map_get_set_ne; [done|intros <-; apply Hk; set_solver..].
  - f_equal.
    rewrite (Map_set_same _ "eslint" ESLintFixer);
      [|repeat first [ apply Map_get_set_eq | rewrite Map_get_set_ne by done ]].
    rewrite (Map_set_same _ "react" ReactFixer);
      [|repeat first [ apply Map_get_set_eq | rewrite Map_get_set_ne by done ]].
    rewrite (Map_set_same _ "supabase" SupabaseFixer);
      [|repeat first [ apply Map_get_set_eq | rewrite Map_get_set_ne by done ]].
    rewrite (Map_set_same _ "security" SecurityFixer);
      [|repeat first [ apply Map_get_set_eq | rewrite Map_get_set_ne by done ]].
    apply Map_set_same, Map_get_set_eq.
Qed.

(** ** Fixes that cannot be applied *)

Section Applier.
Context {Env : Type} (H : Host Env).

(** X4. A finding whose category names no registered fixer is never
    handed to a fixer: [applyFix] returns normally, writes one error on the
    console and pushes nothing; the host is as the backup left it when the
    configuration asks for a backup (the backup is made before the fixer is
    looked up), and untouched otherwise. *)
Theorem applyFix_unregistered (i : Finding) (w : World Env) :
  Map.get (fixers (this w)) (category i) = None →
  ∃ message,
    applyFix H i w
    = (Ok (),
       mkWorld (this w) (heap w) (trace w ++ [Attempt i; Console (LogError message)])
               (match backup_flag (config (this w)) with
                | Some true => (createBackup H (filePath i) (env w)).2
                | _ => env w
                end)).
Proof.
  destruct w as [[c fx iss afs] hp tr0 e]. simpl. intros Hget.
  unfold applyFix, try_catch, mbind, JS_bind, emit, get_this, ext, throw, mret, JS_ret,
    console_log, emit; simpl. rewrite Hget.
  destruct c as [c|]; simpl; [|eexists; by rewrite <- app_assoc].
  destruct (truthy (c !! "backup_before_fix")); simpl; [|eexists; by rewrite <- app_assoc].
  destruct (createBackup H (filePath i) e) as [[[]|msg] e']; simpl;
    eexists; by rewrite <- app_assoc.
Qed.

(** Without a configuration [applyFix] fails before it calls anything. *)
Lemma applyFix_no_config (i : Finding) (w : World Env) :
  config (this w) = None →
  applyFix H i w
  = (Ok (), mkWorld (this w) (heap w)
                    (trace w ++ [Attempt i;
                                 Console (LogError "Cannot read properties of undefined")])
                    (env w)).
Proof.
  destruct w as [[c fx iss afs] hp tr0 e]. simpl. intros ->.
  unfold applyFix, try_catch, mbind, JS_bind, emit, get_this, throw, console_log, emit.
  simpl. by rewrite <- app_assoc.
Qed.

Lemma for_applyFix_no_config (l : list Finding) (w : World Env) :
  config (this w) = None →
  ∃ tr, for_of l (applyFix H) w
        = (Ok (), mkWorld (this w) (heap w) (trace w ++ tr) (env w)).
Proof.
  revert w. induction l as [|i l IH]; intros w Hc.
  - exists []. rewrite app_nil_r. by destruct w.
  - simpl. rewrite bind_run, applyFix_no_config by done.
    destruct (IH (mkWorld (this w) (heap w)
                    (trace w ++ [Attempt i;
                                 Console (LogError "Cannot read properties of undefined")])
                    (env w)) Hc) as [tr ->].
    simpl. eexists. by rewrite <- app_assoc.
Qed.

Lemma presentSuggestedFixes_no_config (l : list Finding) (w : World Env) :
  config (this w) = None →
  ∃ tr, for_of l (presentSuggestedFix H) w
        = (Ok (), mkWorld (this w) (heap w) (trace w ++ tr)
                          (after_prompts H (length l) (env w))).
Proof.
  revert w. induction l as [|i l IH]; intros w Hc.
  - exists []. rewrite app_nil_r. by destruct w.
  - cbn [for_of length after_prompts]. rewrite bind_run.
    unfold presentSuggestedFix at 1, console_log, emit.
    do 4 (rewrite bind_run; cbv beta iota). simpl.
    destruct (promptUser H _ (env w)) as [b e'] eqn:Eb. simpl.
    destruct b.
    + rewrite applyFix_no_config by done. simpl.
      edestruct IH as [tr ->]; [|simpl; eexists; by rewrite <- !app_assoc]. done.
    + unfold mret, JS_ret.
      edestruct IH as [tr ->]; [|simpl; eexists; by rewrite <- !app_assoc]. done.
Qed.

(** X5. On an instance constructed without a configuration, as the editor
    integration constructs it, [applyFixes] applies nothing: every attempt
    fails on reading the configuration, so the call returns the applied
    fixes it found, the instance and the heap are unchanged, and the host
    has seen the prompts for the findings below 0.9 and nothing else: no
    backup, no fix. *)
Theorem applyFixes_no_config (w : World Env) :
  config (this w) = None →
  ∃ tr,
    applyFixes H w
    = (Ok (appliedFixes (this w)),
       mkWorld (this w) (heap w) (trace w ++ tr)
               (after_prompts H (length (suggestedIssues (issues (this w)))) (env w))).
Proof.
  intros Hc. unfold applyFixes. rewrite bind_run. unfold console_log at 1. unfold emit.
  rewrite bind_run. unfold get_this at 1. cbv beta iota.
  change (issues (this (mkWorld (this w) (heap w) (trace w ++ [Console LogApplying]) (env w))))
    with (issues (this w)).
  fold (safeIssues (issues (this w))) (suggestedIssues (issues (this w))).
  rewrite bind_run.
  edestruct (for_applyFix_no_config (safeIssues (issues (this w)))) as [tr1 ->]; [done|].
  cbn [this heap trace env]. rewrite bind_run.
  assert (∃ tr2,
    (if bool_decide (0 < length (suggestedIssues (issues (this w))))
     then presentSuggestedFixes H (suggestedIssues (issues (this w)))
     else mret ())
      (mkWorld (this w) (heap w) ((trace w ++ [Console LogApplying]) ++ tr1) (env w))
    = (Ok (), mkWorld (this w) (heap w) (trace w ++ tr2)
                      (after_prompts H (length (suggestedIssues (issues (this w))))
                                     (env w)))) as [tr2 ->].
  { case_bool_decide as Hlen.
    - unfold presentSuggestedFixes. rewrite bind_run. unfold console_log, emit.
      cbn [this heap trace env].
      edestruct (presentSuggestedFixes_no_config (suggestedIssues (issues (this w))))
        as [tr2 ->]; [done|].
      cbn [this heap trace env]. eexists. by rewrite <- !app_assoc.
    - destruct (suggestedIssues (issues (this w))); [|simpl in Hlen; lia].
      simpl. unfold mret, JS_ret. eexists. by rewrite <- !app_assoc. }
  rewrite bind_run. unfold get_this at 1. cbv beta iota.
  rewrite bind_run. unfold console_log, emit, mret, JS_ret. cbn [this heap trace env].
  eexists. by rewrite <- !app_assoc.
Qed.

(** Every fix that [applyFixes] pushes keeps what was there. *)
Lemma pushed_for_length (l : list Finding) (new : list AppliedFix) :
  pushed_for l new → length new ≤ length l.
Proof. intros [_ S]. apply sublist_length in S. by rewrite length_fmap in S. Qed.


End Applier.

(** ** Consent *)

Section Consent.
Context {Env : Type} (H : Host Env).

Lemma presentSuggestedFix_answered (i : Finding) (w : World Env) :
  ∃ b tr new w',
    presentSuggestedFix H i w = (Ok (), w') ∧ extends w w' tr new
    ∧ decisions tr = Prompt question b :: (if b then [Attempt i] else [])
    ∧ answered H b.
Proof.
  unfold presentSuggestedFix, console_log, emit.
  do 4 (rewrite bind_run; cbv beta iota). simpl.
  destruct (promptUser H _ (env w)) as [b e'] eqn:Eb.
  set (w0 := mkWorld _ _ _ e').
  pose (tr0 := [Console (LogDescription (description i));
                Console (LogFile (filePath i));
                Console (LogConfidence (confidence i));
                Prompt question b]).
  assert (X0 : extends w w0 tr0 []).
  { unfold extends, with_applied, w0. simpl. rewrite app_nil_r, <- !app_assoc.
    by destruct w as [[]]. }
  assert (Hb : answered H b) by (exists (env w); by rewrite Eb).
  destruct b.
  - destruct (applyFix_run H i w0) as (tr1 & new1 & w1 & E1 & X1 & D1 & P1).
    exists true, (tr0 ++ tr1), ([] ++ new1), w1.
    split_and!; [done| |by rewrite decisions_app, D1|done].
    by eapply extends_trans.
  - exists false, tr0, [], w0. by split_and!.
Qed.

Lemma presentSuggestedFixes_answered (l : list Finding) (w : World Env) :
  ∃ answers tr new w',
    for_of l (presentSuggestedFix H) w = (Ok (), w')
    ∧ extends w w' tr new ∧ length answers = length l
    ∧ decisions tr = confirmations l answers ∧ Forall (answered H) answers.
Proof.
  revert w. induction l as [|i l IH]; intros w.
  - exists [], [], [], w. split_and!; auto using extends_refl.
  - destruct (presentSuggestedFix_answered i w) as (b & tr1 & new1 & w1 & E1 & X1 & D1 & B1).
    destruct (IH w1) as (ans & tr2 & new2 & w2 & E2 & X2 & L2 & D2 & B2).
    exists (b :: ans), (tr1 ++ tr2), (new1 ++ new2), w2. split_and!.
    + simpl. by rewrite bind_run, E1.
    + by eapply extends_trans.
    + simpl. by rewrite L2.
    + rewrite decisions_app, D1, D2. done.
    + by constructor.
Qed.

(** The attempts of a run of [applyFixes], with where the answers came
    from. *)
Lemma applyFixes_answered (w : World Env) :
  ∃ answers tr w',
    (applyFixes H w).2 = w'
    ∧ trace w' = trace w ++ tr
    ∧ length answers = length (suggestedIssues (issues (this w)))
    ∧ attempts tr = safeIssues (issues (this w))
                    ++ accepted (suggestedIssues (issues (this w))) answers
    ∧ Forall (answered H) answers.
Proof.
  unfold applyFixes. rewrite bind_run. unfold console_log at 1. unfold emit.
  set (w0 := mkWorld _ _ _ _).
  assert (X0 : extends w w0 [Console LogApplying] []) by apply extends_emit.
  rewrite bind_run. unfold get_this at 1. cbv beta iota.
  assert (I0 : issues (this w0) = issues (this w)) by done.
  rewrite I0. fold (safeIssues (issues (this w))) (suggestedIssues (issues (this w))).
  rewrite bind_run.
  destruct (for_applyFix_run H (safeIssues (issues (this w))) w0)
    as (tr1 & new1 & w1 & E1 & X1 & D1 & P1).
  rewrite E1, bind_run.
  assert (∃ answers tr2 new2 w2,
    (if bool_decide (0 < length (suggestedIssues (issues (this w))))
     then presentSuggestedFixes H (suggestedIssues (issues (this w)))
     else mret ()) w1 = (Ok (), w2)
    ∧ extends w1 w2 tr2 new2
    ∧ length answers = length (suggestedIssues (issues (this w)))
    ∧ decisions tr2 = confirmations (suggestedIssues (issues (this w))) answers
    ∧ Forall (answered H) answers)
    as (ans & tr2 & new2 & w2 & E2 & X2 & L2 & D2 & B2).
  { case_bool_decide as Hlen.
    - unfold presentSuggestedFixes. rewrite bind_run. unfold console_log, emit.
      set (w1' := mkWorld _ _ _ _).
      destruct (presentSuggestedFixes_answered (suggestedIssues (issues (this w))) w1')
        as (ans & tr2 & new2 & w2 & E2 & X2 & L2 & D2 & B2).
      exists ans, ([Console LogSuggestedHeader] ++ tr2), ([] ++ new2), w2.
      split_and!; [done| |done|by rewrite decisions_app|done].
      eapply extends_trans; [apply extends_emit|done].
    - destruct (suggestedIssues (issues (this w))); [|simpl in Hlen; lia].
      exists [], [], [], w1. split_and!; auto using extends_refl. }
  rewrite E2, bind_run. unfold get_this at 1. cbv beta iota.
  rewrite bind_run. unfold console_log, emit, mret, JS_ret. cbn [snd].
  assert (X : extends w w2 (([Console LogApplying] ++ tr1) ++ tr2) (([] ++ new1) ++ new2)).
  { eapply extends_trans; [|done]. by eapply extends_trans. }
  destruct X as (T & Hh & Tr).
  exists ans, ((([Console LogApplying] ++ tr1) ++ tr2)
               ++ [Console (LogApplied (length (appliedFixes (this w2))))]),
         (mkWorld (this w2) (heap w2)
            (trace w2 ++ [Console (LogApplied (length (appliedFixes (this w2))))])
            (env w2)).
  split; [reflexivity|]. cbn [trace]. split_and!.
  - rewrite Tr. by rewrite <- !app_assoc.
  - done.
  - rewrite <- attempts_decisions, !decisions_app, D1, D2. simpl. rewrite app_nil_r.
    by rewrite attempts_app, attempts_Attempt, attempts_confirmations.
  - done.
Qed.

Lemma accepted_constant (l : list Finding) (answers : list bool) (b : bool) :
  length answers = length l → Forall (λ a, a = b) answers →
  accepted l answers = if b then l else [].
Proof.
  revert answers. induction l as [|i l IH]; intros [|a answers]; try done.
  - by destruct b.
  - intros [= L] [-> F]%Forall_cons. simpl. rewrite (IH _ L F). by destruct b.
Qed.

(** X7. Which findings [applyFixes] attempts when the user always gives
    the same answer: with the answer no, exactly the findings at or above
    0.9, in their order, and so nothing below 0.9 is applied without consent;
    with the answer yes, those and then the findings below 0.9. *)
Theorem applyFixes_constant_answer (b : bool) (w : World Env) :
  (∀ message e, (promptUser H message e).1 = b) →
  ∃ tr, trace (applyFixes H w).2 = trace w ++ tr
        ∧ attempts tr = safeIssues (issues (this w))
                        ++ (if b then suggestedIssues (issues (this w)) else []).
Proof.
  intros Hb. destruct (applyFixes_answered w) as (ans & tr & w' & <- & T & L & A & B).
  exists tr. split; [done|]. rewrite A. f_equal. apply accepted_constant; [done|].
  eapply Forall_impl; [exact B|]. intros a [e <-]. apply Hb.
Qed.

End Consent.

(** ** Confidences that are not numbers *)

Lemma SFeqb_refl_nan (a : spec_float) : SFeqb a a = false → a = S754_nan.
Proof.
  unfold SFeqb, SFcompare. destruct a as [s|s| |s m e]; try destruct s; try done.
  all: rewrite Z.compare_refl; fold (Pos.compare m m); rewrite Pos.compare_refl; done.
Qed.

Lemma SFleb_or_SFltb (a b : spec_float) :
  a ≠ S754_nan → b ≠ S754_nan → SFleb a b = true ∨ SFltb b a = true.
Proof.
  unfold SFleb, SFltb, SFcompare.
  destruct a as [sa|sa| |sa ma ea], b as [sb|sb| |sb mb eb];
    try destruct sa; try destruct sb; try done; intros _ _; auto.
  all: fold (Pos.compare mb ma); fold (Pos.compare ma mb);
    rewrite ?(Z.compare_antisym ea eb), ?(Pos.compare_antisym ma mb);
    destruct (ea ?= eb)%Z; auto; destruct (ma ?= mb)%positive; auto.
Qed.

(** A NaN is neither at least 0.9 nor below it; every other number is one
    or the other. *)
Lemma nan_compares (c : float) :
  (PrimFloat.is_nan c = true →
     (0.9 <=? c)%float = false ∧ (c <? 0.9)%float = false)
  ∧ (PrimFloat.is_nan c = false →
     (0.9 <=? c)%float = true ∨ (c <? 0.9)%float = true).
Proof.
  unfold PrimFloat.is_nan. rewrite FloatAxioms.eqb_spec, leb_spec, ltb_spec.
  destruct (SFeqb (Prim2SF c) (Prim2SF c)) eqn:E; simpl; split; try done; intros _.
  - apply SFleb_or_SFltb; [by vm_compute|].
    intros En. by rewrite En in E.
  - apply SFeqb_refl_nan in E as ->. split; reflexivity.
Qed.

Section NotANumber.
Context {Env : Type} (H : Host Env).

(** X8. A finding whose confidence is NaN falls through both filters of
    [applyFixes]: it is neither attempted nor asked about, in any run. Every
    other finding of the list is in exactly the safe or the suggested
    list. *)
Theorem applyFixes_nan_confidence (w : World Env) (i : Finding) :
  i ∈ issues (this w) →
  ∃ tr, trace (applyFixes H w).2 = trace w ++ tr
        ∧ (PrimFloat.is_nan (confidence i) = true →
             (i ∉ safeIssues (issues (this w)))
             ∧ (i ∉ suggestedIssues (issues (this w)))
             ∧ (i ∉ attempts tr))
        ∧ (PrimFloat.is_nan (confidence i) = false →
             i ∈ safeIssues (issues (this w))
             ∨ i ∈ suggestedIssues (issues (this w))).
Proof.
  intros Hi.
  destruct (applyFixes_attempts H w) as (ans & tr & new & w' & E & (_ & _ & T) & A & _).
  exists tr. rewrite E. split; [done|].
  destruct (nan_compares (confidence i)) as [Cn Cf].
  assert (Sf : i ∈ safeIssues (issues (this w)) ↔ (0.9 <=? confidence i)%float = true).
  { unfold safeIssues. rewrite list_elem_of_filter, Is_true_true. tauto. }
  assert (Sg : i ∈ suggestedIssues (issues (this w)) ↔ (confidence i <? 0.9)%float = true).
  { unfold suggestedIssues. rewrite list_elem_of_filter, Is_true_true. tauto. }
  split.
  - intros [C1 C2]%Cn.
    assert (N1 : i ∉ safeIssues (issues (this w))) by (rewrite Sf, C1; done).
    assert (N2 : i ∉ suggestedIssues (issues (this w))) by (rewrite Sg, C2; done).
    split_and!; [done..|].
    rewrite A. intros [Hin|Hin]%elem_of_app; [done|].
    eapply elem_of_submseteq in Hin; [|apply sublist_submseteq, accepted_sublist].
    done.
  - intros C%Cf. rewrite Sf, Sg. done.
Qed.

End NotANumber.

(** ** Files that cannot be read or are not handled *)

Section Scanning.
Context {Env : Type} (H : Host Env).

Lemma for_of_app_ok {A} (l1 l2 : list A) (body : A → JS Env ()) (w w1 : World Env) :
  for_of l1 body w = (Ok (), w1) → for_of (l1 ++ l2) body w = for_of l2 body w1.
Proof.
  revert w. induction l1 as [|x l1 IH]; intros w; simpl.
  - by intros [= ->].
  - rewrite !bind_run. destruct (body x w) as [[[]|e|] w']; [apply IH|done|done].
Qed.

Lemma analyzeFile_unreadable (path message : string) (w : World Env) (e' : Env) :
  fs_readFile H path (env w) = (inr message, e') →
  analyzeFile H path w = (Throw message, mkWorld (this w) (heap w) (trace w) e').
Proof. intros E. unfold analyzeFile. rewrite bind_run. unfold ext. by rewrite E. Qed.

(** X9. One file that cannot be read aborts [analyzeProject]: when the
    files before it have been analysed and reading it throws, the call
    throws that exception; the files after it are never read, the count of
    issues is never printed, and the issues found so far stay on the
    instance. *)
Theorem analyzeProject_unreadable_file (projectPath : string) (w w1 : World Env)
    (before after : list string) (unreadable message : string) (e0 e2 : Env) :
  getProjectFiles H projectPath (env w) = (inl (before ++ unreadable :: after), e0) →
  for_of before (analyzeFile H)
         (mkWorld (this w) (heap w) (trace w ++ [Console LogAnalyzing]) e0) = (Ok (), w1) →
  fs_readFile H unreadable (env w1) = (inr message, e2) →
  analyzeProject H projectPath w
  = (Throw message, mkWorld (this w1) (heap w1) (trace w1) e2).
Proof.
  intros Eg Eb Er. unfold analyzeProject. rewrite bind_run.
  unfold console_log at 1. unfold emit. rewrite bind_run. unfold ext at 1.
  cbn [env]. rewrite Eg. rewrite bind_run.
  rewrite (for_of_app_ok _ _ _ _ _ Eb). cbn [for_of]. rewrite bind_run.
  by rewrite (analyzeFile_unreadable _ _ _ _ Er).
Qed.

(** X10. A file of a type that no registered fixer handles is read and
    nothing more: [analyzeFile] returns normally, pushes no issue, creates
    no [RegExp] object and writes nothing. *)
Theorem analyzeFile_unhandled (path content : string) (w : World Env) (e' : Env) :
  fs_readFile H path (env w) = (inl content, e') →
  Forall (λ entry, canHandle H entry.2 (detectFileType H path) = false) (fixers (this w)) →
  analyzeFile H path w = (Ok (), mkWorld (this w) (heap w) (trace w) e').
Proof.
  intros Er Hf. unfold analyzeFile. rewrite bind_run. unfold ext. rewrite Er.
  rewrite bind_run. unfold get_this. cbn [this].
  generalize (mkWorld (this w) (heap w) (trace w) e'). intros w0.
  induction Hf as [|[name fixer] l Hc Hf IH]; [done|].
  cbn [for_of]. rewrite bind_run. unfold analyzeWith at 1. simpl in Hc. rewrite Hc.
  unfold mret at 1, JS_ret. exact IH.
Qed.

End Scanning.

(** ** The report *)

Lemma sum_counts_step (cats : gmap string nat) (k : string) :
  sum_counts (<[k := S (default 0 (cats !! k))]> cats) = S (sum_counts cats).
Proof.
  unfold sum_counts. destruct (cats !! k) as [n|] eqn:E; simpl.
  - rewrite <- insert_delete_eq.
    rewrite map_fold_insert_L; [|intros; lia|apply lookup_delete_eq].
    rewrite (map_fold_delete_L _ _ k n cats); [lia|intros; lia|done].
  - rewrite map_fold_insert_L; [done|intros; lia|done].
Qed.

(** A round changes the value under its category only, and that as
    [counted] says. *)
Lemma count_category_lookup (cats : gmap string Count) (c c' : string) :
  count_category cats c !! c' = if decide (c = c') then counted c (cats !! c) else cats !! c'.
Proof.
  unfold count_category. destruct (decide (c = c')) as [<-|Hne].
  - destruct (counted c (cats !! c)) as [v|] eqn:E; [by rewrite lookup_insert_eq|].
    destruct (cats !! c) as [[|n]|]; done.
  - destruct (counted c (cats !! c)); [by rewrite lookup_insert_ne|done].
Qed.

(** The value under [c] after the rounds for a list of fixes: [counted],
    once for each fix of the category. *)
Lemma count_categories_lookup (acc : gmap string Count) (l : list AppliedFix) (c : string) :
  foldl (λ cats f, count_category cats (category (issue f))) acc l !! c
  = Nat.iter (length (fixes_of_category c l)) (counted c) (acc !! c).
Proof.
  revert acc. induction l as [|f l IH]; intros acc; [done|].
  cbn [foldl]. rewrite IH, count_category_lookup. unfold fixes_of_category.
  rewrite filter_cons. destruct (decide (category (issue f) = c)) as [->|Hne].
  - simpl length. by rewrite Nat.iter_succ_r.
  - done.
Qed.

Lemma proto_inherited : "__proto__" ∈ Object_prototype.
Proof. compute_done. Qed.

Lemma counted_plain (c : string) (k : nat) :
  c ∉ Object_prototype →
  Nat.iter k (counted c) None = if decide (k = 0) then None else Some (Num k).
Proof.
  intros Hc. assert (Hp : c ≠ "__proto__") by (intros ->; apply Hc, proto_inherited).
  induction k as [|k IH]; [done|]. simpl. rewrite IH.
  destruct k as [|k]; simpl; [|done].
  by rewrite bool_decide_eq_false_2, bool_decide_eq_false_2.
Qed.

Lemma counted_inherited (c : string) (k : nat) :
  c ∈ Object_prototype → c ≠ "__proto__" →
  Nat.iter k (counted c) None
  = match k with
    | 0 => None
    | 1 => Some NaN
    | S (S n) => Some (Num (S n))
    end.
Proof.
  intros Hc Hp. destruct k as [|[|k]]; [done| |].
  - simpl. by rewrite bool_decide_eq_false_2, bool_decide_eq_true_2.
  - induction k as [|k IH].
    + simpl. by rewrite bool_decide_eq_false_2, bool_decide_eq_true_2.
    + change (Nat.iter (S (S (S k))) (counted c) None)
        with (counted c (Nat.iter (S (S k)) (counted c) None)).
      by rewrite IH.
Qed.

Lemma counted_proto (k : nat) : Nat.iter k (counted "__proto__") None = None.
Proof. induction k as [|k IH]; [done|]. simpl. by rewrite IH. Qed.

(** Where no category is an inherited name, the counts are numbers, and
    each round adds one to their sum. *)
Lemma count_categories_plain (m : gmap string nat) (l : list AppliedFix) :
  Forall (λ f, category (issue f) ∉ Object_prototype) l →
  ∃ m', foldl (λ cats f, count_category cats (category (issue f))) (Num <$> m) l
        = Num <$> m'
        ∧ sum_counts m' = sum_counts m + length l.
Proof.
  intros P. revert m. induction P as [|f l Hc P IH]; intros m.
  - exists m. simpl. split; [done|lia].
  - assert (Hp : category (issue f) ≠ "__proto__").
    { intros E. apply Hc. rewrite E. apply proto_inherited. }
    cbn [foldl].
    assert (E : count_category (Num <$> m) (category (issue f))
                = Num <$> <[category (issue f) := S (default 0 (m !! category (issue f)))]> m).
    { unfold count_category. rewrite lookup_fmap, fmap_insert.
      destruct (m !! category (issue f)) as [n|]; simpl; [done|].
      by rewrite bool_decide_eq_false_2, bool_decide_eq_false_2. }
    rewrite E. destruct (IH (<[category (issue f) := S (default 0 (m !! category (issue f)))]> m))
      as (m' & -> & Hs).
    exists m'. split; [done|]. rewrite Hs, sum_counts_step. simpl. lia.
Qed.

Lemma filter_not_in_nil (l : list string) : filter (λ y, y ∉ []) l = l.
Proof.
  induction l as [|y l IH]; [done|]. rewrite filter_cons_True; [by rewrite IH|].
  apply not_elem_of_nil.
Qed.

(** [distinct] keeps the elements where they first occur. *)
Lemma distinct_first_occurrences (acc l : list string) :
  foldl (λ acc x, if bool_decide (x ∈ acc) then acc else acc ++ [x]) acc l
  = acc ++ filter (λ y, y ∉ acc) (first_occurrences l).
Proof.
  revert acc. induction l as [|x l IH]; intros acc.
  - simpl. by rewrite app_nil_r.
  - cbn [foldl first_occurrences]. rewrite IH. case_bool_decide as Hx.
    + rewrite filter_cons_False by (intros N; by apply N).
      rewrite list_filter_filter. f_equal. apply list_filter_iff.
      intros y. split; [by split; [|intros ->]|by intros [? _]].
    + rewrite filter_cons_True by done.
      rewrite list_filter_filter, <- app_assoc. simpl. do 2 f_equal.
      apply list_filter_iff. intros y.
      rewrite elem_of_app, list_elem_of_singleton. tauto.
Qed.

Lemma distinct_step (acc l : list string) :
  NoDup acc →
  ∃ k, foldl (λ acc x, if bool_decide (x ∈ acc) then acc else acc ++ [x]) acc l = acc ++ k
       ∧ NoDup (acc ++ k) ∧ k `sublist_of` l ∧ (∀ x, x ∈ l → x ∈ acc ++ k).
Proof.
  revert acc. induction l as [|x l IH]; intros acc Hnd.
  - exists []. rewrite app_nil_r. split_and!; [done..|]. intros x Hx. by apply elem_of_nil in Hx.
  - cbn [foldl]. case_bool_decide as Hx.
    + destruct (IH acc Hnd) as (k & -> & N & S & A). exists k. split_and!; [done..| |].
      * by apply sublist_cons.
      * intros y [->|Hy]%elem_of_cons; [|by apply A]. apply elem_of_app. by left.
    + destruct (IH (acc ++ [x])) as (k & -> & N & S & A).
      { apply NoDup_app. split_and!; [done| |apply NoDup_singleton].
        intros y Hy ->%list_elem_of_singleton. done. }
      exists (x :: k). rewrite <- app_assoc in *. simpl in *. split_and!; [done..| |].
      * by apply sublist_skip.
      * intros y [->|Hy]%elem_of_cons; [|by apply A]. set_solver.
Qed.

Section Reporting.
Context {Env : Type} (H : Host Env).

(** X11. [generateReport] counts what the instance holds and changes
    nothing but the clock: the report gives the number of issues and of
    applied fixes. A category that is no property name of [Object.prototype]
    has an entry exactly when some applied fix has it, and the entry is their
    number; where every applied fix has such a category, all entries are
    numbers and add up to the number of applied fixes. A category that is an
    inherited name is counted wrongly: its first fix leaves [NaN] and the
    count starts again, so that two or more fixes count as one less; and
    [__proto__] never gets an entry. *)
Theorem generateReport_counts (w : World Env) :
  ∃ r, generateReport H w
       = (Ok r, mkWorld (this w) (heap w) (trace w) (Date_toISOString H (env w)).2)
       ∧ report_timestamp r = (Date_toISOString H (env w)).1
       ∧ total_issues r = length (issues (this w))
       ∧ applied_fixes r = length (appliedFixes (this w))
       ∧ (∀ c, c ∉ Object_prototype →
               categories r !! c
               = if decide (fixes_of_category c (appliedFixes (this w)) = [])
                 then None
                 else Some (Num (length (fixes_of_category c (appliedFixes (this w))))))
       ∧ (Forall (λ f, category (issue f) ∉ Object_prototype) (appliedFixes (this w)) →
          ∃ m, categories r = Num <$> m ∧ sum_counts m = applied_fixes r)
       ∧ (∀ c, c ∈ Object_prototype → c ≠ "__proto__" →
               categories r !! c
               = match length (fixes_of_category c (appliedFixes (this w))) with
                 | 0 => None
                 | 1 => Some NaN
                 | S (S n) => Some (Num (S n))
                 end)
       ∧ categories r !! "__proto__" = None.
Proof.
  unfold generateReport. rewrite bind_run. unfold ext.
  destruct (Date_toISOString H (env w)) as [t e'] eqn:Et. simpl.
  eexists. split; [reflexivity|]. simpl. unfold count_categories. split_and!; try done.
  - intros c Hc. rewrite count_categories_lookup, lookup_empty, counted_plain by done.
    destruct (fixes_of_category c (appliedFixes (this w))); done.
  - intros P. destruct (count_categories_plain ∅ _ P) as (m & E & Hs).
    rewrite fmap_empty in E. exists m. split; [done|].
    rewrite Hs. unfold sum_counts. by rewrite map_fold_empty.
  - intros c Hc Hp. by rewrite count_categories_lookup, lookup_empty, counted_inherited.
  - by rewrite count_categories_lookup, lookup_empty, counted_proto.
Qed.

(** X12. The modified files of a report are the paths of the applied
    fixes, each once, in the order in which they first occur: the first
    path, then the files of the rest without it. So no path is listed
    twice, the list is taken from the paths in their order, and a path is
    listed exactly when some applied fix has it. *)
Theorem generateReport_files (w : World Env) :
  ∃ r, (generateReport H w).1 = Ok r
       ∧ files_modified r
         = first_occurrences ((λ f, filePath (issue f)) <$> appliedFixes (this w))
       ∧ NoDup (files_modified r)
       ∧ files_modified r `sublist_of` (λ f, filePath (issue f)) <$> appliedFixes (this w)
       ∧ (∀ p, p ∈ files_modified r
               ↔ ∃ f, f ∈ appliedFixes (this w) ∧ filePath (issue f) = p).
Proof.
  unfold generateReport. rewrite bind_run. unfold ext.
  destruct (Date_toISOString H (env w)) as [t e'] eqn:Et. simpl.
  eexists. split; [reflexivity|]. simpl. split.
  { unfold distinct. by rewrite distinct_first_occurrences, filter_not_in_nil. }
  unfold distinct.
  destruct (distinct_step [] (map (λ f, filePath (issue f)) (appliedFixes (this w))))
    as (k & -> & N & S & A); [constructor|]. simpl in *.
  split_and!; [done|done|]. intros p. split.
  - intros Hp. eapply elem_of_submseteq in Hp; [|by apply sublist_submseteq].
    apply list_elem_of_fmap in Hp as (f & -> & Hf). by exists f.
  - intros (f & Hf & <-). apply A. apply list_elem_of_fmap. by exists f.
Qed.

End Reporting.

(** ** A whole run *)

Section WholeRun.
Context {Env : Type} (H : Host Env).

Lemma bind_inv_world {A B} (m : JS Env A) (f : A → JS Env B) (w w2 : World Env) (b : B) :
  (m ≫= f) w = (Ok b, w2) → ∃ a w1, m w = (Ok a, w1) ∧ f a w1 = (Ok b, w2).
Proof. rewrite bind_run. destruct (m w) as [[a|e|] w1]; [by eauto|done|done]. Qed.

(** The applied fixes a run of [applyFixes] pushes are of findings of the
    list, and at most as many. *)
Lemma applyFixes_pushed (w : World Env) :
  ∃ new w', applyFixes H w = (Ok (appliedFixes (this w) ++ new), w')
            ∧ this w' = with_applied (this w) new
            ∧ length new ≤ length (issues (this w))
            ∧ ∀ f, f ∈ new → issue f ∈ issues (this w).
Proof.
  destruct (applyFixes_attempts H w) as (ans & tr & new & w' & E & (T & _) & A & P).
  assert (S : attempts tr ⊆+ issues (this w)).
  { rewrite A. etrans; [|apply partition_submseteq].
    apply sublist_submseteq, sublist_app; [done|apply accepted_sublist]. }
  exists new, w'. split_and!; [done..| |].
  - etrans; [by eapply pushed_for_length|]. by apply submseteq_length.
  - intros f Hf. destruct P as [_ P]. eapply elem_of_submseteq; [|exact S].
    eapply elem_of_submseteq; [|by apply sublist_submseteq].
    apply list_elem_of_fmap. by exists f.
Qed.

(** X13. The report of the programmatic usage, on a fresh instance, is
    consistent with what was found: it never counts more applied fixes than
    issues, every file it lists as modified is the file of an issue, and its
    total is the number of issues on the instance. *)
Theorem usage_report_consistent (config : option (gmap string JsVal))
    (projectPath : string) (w w' : World Env) (r : Report) :
  usage H config projectPath w = (Ok r, w') →
  total_issues r = length (issues (this w'))
  ∧ applied_fixes r ≤ total_issues r
  ∧ ∀ p, p ∈ files_modified r → ∃ i, i ∈ issues (this w') ∧ filePath i = p.
Proof.
  unfold usage. intros E.
  apply bind_inv_world in E as ([] & w0 & E0 & E). injection E0 as <-.
  apply bind_inv_world in E as (l & w1 & E1 & E).
  apply bind_inv_world in E as (fs & w2 & E2 & E).
  pose proof (appends_analyzeProject H projectPath
                (mkWorld (constructor config) (heap w) (trace w) (env w))) as [l1 G].
  rewrite E1 in G. cbn [snd this constructor initializeFixers issues appliedFixes] in G.
  destruct (applyFixes_pushed w1) as (new & w2' & E2' & T & L & I).
  rewrite E2' in E2. injection E2 as <- <-.
  unfold generateReport in E. apply bind_inv_world in E as (t & w3 & E3 & E).
  assert (T3 : this w3 = this w2').
  { unfold ext in E3. by destruct (Date_toISOString H (env w2')); injection E3 as _ <-. }
  rewrite bind_run in E. unfold get_this, mret, JS_ret in E. injection E as <- <-.
  cbn [total_issues applied_fixes files_modified]. rewrite T3, T, G.
  cbn [with_applied issues appliedFixes]. rewrite G in L, I. cbn [issues] in L, I.
  simpl in L, I |- *. split_and!; [done|done|].
  intros p Hp. unfold distinct in Hp.
  destruct (distinct_step [] (map (λ f, filePath (issue f)) new))
    as (k & Ek & _ & S & _); [constructor|].
  rewrite Ek in Hp. simpl in Hp.
  eapply elem_of_submseteq in Hp; [|by apply sublist_submseteq].
  apply list_elem_of_fmap in Hp as (f & -> & Hf). eauto.
Qed.

End WholeRun.

(** ** The detection patterns *)

Lemma in_order_weaken (a b : nat) (ms : list MatchResult) :
  b ≤ a → in_order a ms → in_order b ms.
Proof. destruct ms as [|m ms]; [done|]. simpl. intros ? [? ?]. split; [lia|done]. Qed.

(** The matches of [matchAll] are matches of the pattern in the string,
    from left to right and without overlap. *)
Lemma matchAll_loop_sound (fuel : nat) (o : RegExpObj) (s : string)
    (ms : list MatchResult) :
  matchAll_loop fuel o s = Some ms →
  Forall (match_of (source o) s) ms ∧ in_order (lastIndex o) ms.
Proof.
  revert o ms. induction fuel as [|fuel IH]; intros o ms; simpl; [done|].
  destruct (exec o s) as [[m|] o1] eqn:E; [|by intros [= <-]].
  apply exec_sound in E as (M & Li & ->). cbn [source lastIndex].
  destruct (matchAll_loop fuel _ s) as [ms'|] eqn:E'; [|done].
  intros [= <-]. apply IH in E' as [F O]. split.
  - constructor; [done|]. by destruct (String.eqb (m_0 m) "").
  - simpl. split; [done|]. eapply in_order_weaken; [|exact O].
    destruct (String.eqb (m_0 m) ""); simpl; lia.
Qed.

(** [matchAll] ends, whatever the pattern. *)
Lemma matchAll_loop_total (fuel : nat) (o : RegExpObj) (s : string) :
  S (String.length s) - lastIndex o < fuel → is_Some (matchAll_loop fuel o s).
Proof.
  revert o. induction fuel as [|fuel IH]; intros o L; [lia|].
  simpl. destruct (exec o s) as [[m|] o1] eqn:E; [|by eexists].
  pose proof E as E0. apply exec_sound in E as (M & Li & ->). cbn [source lastIndex].
  assert (Hle : lastIndex o ≤ String.length s).
  { unfold exec in E0. by destruct (Nat.ltb_spec (String.length s) (lastIndex o)). }
  set (o2 := if String.eqb (m_0 m) "" then _ else _).
  destruct (IH o2) as [ms ->]; [|by eexists].
  unfold o2. destruct (String.eqb_spec (m_0 m) "") as [E|E]; simpl; [lia|].
  destruct (m_0 m); [done|]. simpl. lia.
Qed.

Lemma matches_S (fuel : nat) (o : RegExpObj) (s : string) :
  matches (S fuel) o s
  = match exec o s with
    | (None, o') => (Some [], o')
    | (Some m, o') => let '(ms, o'') := matches fuel o' s in (cons m <$> ms, o'')
    end.
Proof. reflexivity. Qed.

Lemma matches_more_fuel (fuel : nat) (o o' : RegExpObj) (s : string)
    (ms : list MatchResult) :
  matches fuel o s = (Some ms, o') → matches (S fuel) o s = (Some ms, o').
Proof.
  revert o ms. induction fuel as [|fuel IH]; intros o ms; [done|].
  rewrite (matches_S (S fuel)), (matches_S fuel).
  destruct (exec o s) as [[m|] o1]; [|done].
  destruct (matches fuel o1 s) as [[ms'|] o2] eqn:E; [|done].
  intros [= <- <-]. by rewrite (IH _ _ E).
Qed.

(** For a pattern that cannot match the empty string, [matchAll] is the
    loop of [exec] of the fixers. *)
Lemma matchAll_loop_matches (fuel : nat) (o o' : RegExpObj) (s : string)
    (ms : list MatchResult) :
  nonempty (source o) = true →
  matches fuel o s = (Some ms, o') → matchAll_loop fuel o s = Some ms.
Proof.
  intros N. revert o ms N. induction fuel as [|fuel IH]; intros o ms N; [done|].
  cbn [matches matchAll_loop]. destruct (exec o s) as [[m|] o1] eqn:E; [|by intros [= <- <-]].
  apply exec_sound in E as ((Lg & _) & _ & ->).
  apply (lang_nonempty _ _ N) in Lg. apply String.eqb_neq in Lg as ->.
  destruct (matches fuel _ s) as [[ms'|] o2] eqn:E'; [|done].
  intros [= <- <-]. by rewrite (IH (mkRegExp (source o) _) _ N E').
Qed.

Section Patterns.
Context {Env : Type} (H : Host Env).

(** X14. The detection pattern of the document and the fixer agree: for
    every code, [detectMissingErrorHandling] returns a list of matches, and
    the findings of [findMissingErrorHandling] on that code are made of
    exactly those matches, in that order. *)
Theorem detectMissingErrorHandling_agrees (code path : string) (w : World Env) :
  ∃ ms, detectMissingErrorHandling code = Some ms
        ∧ (findMissingErrorHandling H code path w).1
          = Ok (missing_error_handling H code path <$> ms).
Proof.
  destruct (findMissingErrorHandling_run H code path w) as (ms & o & M & ->).
  exists ms. split; [|done].
  apply matches_more_fuel in M. by apply matchAll_loop_matches in M.
Qed.

End Patterns.

Lemma lang_semicolon (t : string) :
  lang semicolonPattern t →
  ∃ c mid, t = String c (mid +:+ String "010" "")
           ∧ c ≠ ";"%char ∧ all_in CSpace mid = true.
Proof.
  simpl. intros (p1 & p2 & -> & (c & -> & Hc) & p3 & p4 & -> & Hs & p5 & p6 & ->
                 & (x & -> & Hx) & ->).
  apply Ascii.eqb_eq in Hx as ->. exists c, p3. split_and!; [done| |done].
  intros ->. done.
Qed.

(** X15. For every code, [detectMissingSemicolons] returns a list of
    texts; each begins with a character other than a semicolon, goes on
    with white space only and ends with a line feed, and occurs in the code.
    There are at most as many as characters, and none when the code has no
    line feed. *)
Theorem detectMissingSemicolons_texts (code : string) :
  ∃ l, detectMissingSemicolons code = Some l
       ∧ Forall (λ t, (∃ c mid, t = String c (mid +:+ String "010" "")
                                ∧ c ≠ ";"%char ∧ all_in CSpace mid = true)
                      ∧ JsString.includes t code = true) l
       ∧ length l ≤ String.length code
       ∧ (JsString.includes (String "010" "") code = false → l = []).
Proof.
  unfold detectMissingSemicolons, matchAll.
  destruct (matchAll_loop_total (S (S (String.length code)))
              (mkRegExp semicolonPattern 0) code) as [ms E]; [simpl; lia|].
  rewrite E. simpl. exists (m_0 <$> ms).
  apply matchAll_loop_sound in E as [F O]. cbn [source lastIndex] in *.
  assert (G : Forall (λ m, (∃ c mid, m_0 m = String c (mid +:+ String "010" "")
                                     ∧ c ≠ ";"%char ∧ all_in CSpace mid = true)
                           ∧ JsString.includes (m_0 m) code = true) ms).
  { eapply Forall_impl; [exact F|]. intros m M. split; [|by eapply match_of_includes].
    destruct M as [L _]. by apply lang_semicolon. }
  split_and!.
  - done.
  - by apply Forall_fmap.
  - rewrite length_fmap.
    destruct (in_order_count semicolonPattern code 0 ms eq_refl F O) as [->|]; simpl; lia.
  - intros No. destruct ms as [|m ms]; [done|]. exfalso.
    apply Forall_inv in G as [(c & mid & E & _) (a & b & ->)%includes_inv].
    rewrite E in No.
    change (String c (mid +:+ String "010" "")) with (String c "" +:+ (mid +:+ String "010" ""))
      in No.
    rewrite <- (append_assoc (String c "") mid), (append_assoc _ (String "010" "") b),
      <- (append_assoc a), includes_occurs in No. done.
Qed.

(** ** The groups of the matches *)

Lemma rmatch_captures {R} (r : regex) (s : string) (cs : gmap nat string)
    (cont : string → gmap nat string → option R) (x : R) :
  rmatch r s cs cont = Some x →
  ∃ pre s' cs', s = pre +:+ s' ∧ captures r pre cs cs' ∧ cont s' cs' = Some x.
Proof.
  revert R s cs cont x.
  induction r as [|k|k|k|r1 IH1 r2 IH2|n r1 IH1|r1 IH1]; intros R s cs cont x; simpl.
  - intros E. by exists "", s, cs.
  - destruct s as [|c s]; [done|]. destruct (cmatch k c) eqn:Ec; [|done].
    intros E. exists (String c ""), s, cs. split; [done|]. split; [|done].
    split; [|done]. by exists c.
  - intros (pre & s' & -> & A & E)%star_greedy_sound. by exists pre, s', cs.
  - destruct s as [|c s]; [done|]. destruct (cmatch k c) eqn:Ec; [|done].
    intros (pre & s' & -> & A & E)%star_greedy_sound.
    exists (String c pre), s', cs. simpl. rewrite Ec, A. by split_and!.
  - intros (p1 & s1 & cs1 & -> & L1 & E)%IH1.
    apply IH2 in E as (p2 & s2 & cs2 & -> & L2 & E).
    exists (p1 +:+ p2), s2, cs2. rewrite append_assoc. split; [done|]. split; [|done].
    by exists p1, p2, cs1.
  - intros (p1 & s1 & cs1 & -> & L1 & E)%IH1.
    rewrite consumed_append in E.
    exists p1, s1, (<[n := p1]> cs1). split; [done|]. split; [|done]. by exists cs1.
  - destruct (rmatch r1 s cs _); [done|]. intros E. by exists "", s, cs.
Qed.

(** The groups of a match that [search] finds are those the pattern
    captures in its text. *)
Lemma search_captures (r : regex) (s : string) (i e : nat) (m : MatchResult) :
  search r s i = Some (e, m) → captures r (m_0 m) ∅ (m_groups m).
Proof.
  revert i. induction s as [|c s IH]; intros i; cbn [search].
  - destruct (rmatch r "" ∅ _) as [[s' cs]|] eqn:E; [|done].
    apply rmatch_captures in E as (pre & s1 & cs1 & E & L & [= -> ->]).
    intros [= <- <-]. simpl. by rewrite E, consumed_append.
  - destruct (rmatch r (String c s) ∅ _) as [[s' cs]|] eqn:E; [|by apply IH].
    apply rmatch_captures in E as (pre & s1 & cs1 & E & L & [= -> ->]).
    intros [= <- <-]. simpl. by rewrite E, consumed_append.
Qed.

Lemma matches_captures (fuel : nat) (o o' : RegExpObj) (content : string)
    (ms : list MatchResult) :
  matches fuel o content = (Some ms, o') →
  Forall (λ m, captures (source o) (m_0 m) ∅ (m_groups m)) ms.
Proof.
  revert o ms. induction fuel as [|fuel IH]; intros o ms; [done|].
  rewrite matches_S. destruct (exec o content) as [[m|] o1] eqn:E; [|by intros [= <- <-]].
  pose proof E as E0. apply exec_sound in E0 as (_ & _ & ->).
  unfold exec in E. destruct (Nat.ltb _ _); [done|].
  destruct (search _ _ _) as [[e m']|] eqn:Es; [|done]. injection E as -> _.
  apply search_captures in Es.
  destruct (matches fuel _ content) as [[ms'|] o2] eqn:E'; [|done].
  intros [= <- <-]. apply IH in E'. by constructor.
Qed.

Lemma captures_Lit (s pre : string) (cs cs' : gmap nat string) :
  captures (Lit s) pre cs cs' → pre = s ∧ cs' = cs.
Proof.
  revert pre cs cs'. induction s as [|c s IH]; intros pre cs cs'; simpl; [done|].
  intros (p1 & p2 & cs1 & -> & ((x & -> & ->%Ascii.eqb_eq) & ->) & [-> ->]%IH). done.
Qed.

(** The text of a match of [mapPattern] ends with [<] and its second
    group, a non-empty text without [>]. *)
Lemma mapPattern_groups (t : string) (cs : gmap nat string) :
  captures mapPattern t ∅ cs →
  ∃ front tag, t = front +:+ "<" +:+ tag ∧ cs !! 2 = Some tag ∧ tag ≠ "".
Proof.
  unfold mapPattern. cbn [Seqs captures].
  intros (p1 & q1 & c1 & -> & [-> ->]%captures_Lit
          & p2 & q2 & c2 & -> & [_ ->]
          & p3 & q3 & c3 & -> & [-> ->]%captures_Lit
          & p4 & q4 & c4 & -> & [_ ->]
          & p5 & q5 & c5 & -> & (c5' & [_ ->] & ->)
          & p6 & q6 & c6 & -> & [_ ->]
          & p7 & q7 & c7 & -> & [-> ->]%captures_Lit
          & p8 & q8 & c8 & -> & [_ ->]
          & p9 & q9 & c9 & -> & [-> ->]%captures_Lit
          & p10 & q10 & c10 & -> & (c10' & [[Hne _] ->] & ->)
          & p11 & q11 & c11 & -> & [-> ->] & -> & ->).
  exists (".map" +:+ p2 +:+ "(" +:+ p4 +:+ p5 +:+ p6 +:+ "=>" +:+ p8), p10.
  split_and!; [|apply lookup_insert_eq|done].
  rewrite !append_nil_r, !append_assoc. done.
Qed.

(** ** The replacement texts *)

(** One step of [getSubstitution]: it reads one character, or a dollar
    and the character after it, and then goes on with the rest. *)
Lemma getSubstitution_other (m b a : string) (c : ascii) (r : string) :
  c ≠ "$"%char →
  JsString.getSubstitution m b a (String c r)
  = String c (JsString.getSubstitution m b a r).
Proof. intros N. by destruct c as [[] [] [] [] [] [] [] []]. Qed.

Lemma getSubstitution_dollar (m b a : string) (d : ascii) (r : string) :
  d ≠ "$"%char → d ≠ "&"%char → d ≠ "`"%char → d ≠ "'"%char →
  JsString.getSubstitution m b a (String "$" (String d r))
  = String "$" (JsString.getSubstitution m b a (String d r)).
Proof. intros N1 N2 N3 N4. by destruct d as [[] [] [] [] [] [] [] []]. Qed.

Lemma getSubstitution_step (m b a : string) (c : ascii) (r : string) :
  (∃ y, JsString.getSubstitution m b a (String c r)
        = y +:+ JsString.getSubstitution m b a r)
  ∨ (∃ d r' y, r = String d r' ∧ d ≠ " "%char
               ∧ JsString.getSubstitution m b a (String c r)
                 = y +:+ JsString.getSubstitution m b a r').
Proof.
  destruct (decide (c = "$"%char)) as [->|N].
  2:{ left. exists (String c ""). by rewrite getSubstitution_other. }
  destruct r as [|d r']; [left; by exists "$"|].
  destruct (decide (d = "$"%char)) as [->|N1]; [right; by exists "$"%char, r', "$"|].
  destruct (decide (d = "&"%char)) as [->|N2]; [right; by exists "&"%char, r', m|].
  destruct (decide (d = "`"%char)) as [->|N3]; [right; by exists "`"%char, r', b|].
  destruct (decide (d = "'"%char)) as [->|N4]; [right; by exists "'"%char, r', a|].
  left. exists "$". by rewrite getSubstitution_dollar.
Qed.

(** A replacement text that ends with [ key={index}] gives a text that
    ends with it. *)
Lemma getSubstitution_key (m b a x : string) :
  ∃ y, JsString.getSubstitution m b a (x +:+ " key={index}") = y +:+ " key={index}".
Proof.
  remember (String.length x) as n eqn:En. revert x En.
  induction n as [n IH] using lt_wf_ind. intros x ->.
  destruct x as [|c x]; [by exists ""|]. rewrite append_cons.
  destruct (getSubstitution_step m b a c (x +:+ " key={index}"))
    as [[y E]|(d & r' & y & Er & Nd & E)]; rewrite E.
  - destruct (IH (String.length x) ltac:(simpl; lia) x eq_refl) as [y' ->].
    exists (y +:+ y'). by rewrite append_assoc.
  - destruct x as [|d' x]; [by injection Er as <- _|].
    rewrite append_cons in Er. injection Er as _ <-.
    destruct (IH (String.length x) ltac:(simpl; lia) x eq_refl) as [y' ->].
    exists (y +:+ y'). by rewrite append_assoc.
Qed.

(** Where the pattern occurs, [replace] puts a text that ends with
    [ key={index}] in the text. *)
Lemma replace_key (p x front back : string) :
  JsString.includes " key={index}"
    (JsString.replace p (x +:+ " key={index}") (front +:+ p +:+ back)) = true.
Proof.
  unfold JsString.replace.
  pose proof (includes_occurs p front back) as [i ->]%bool_decide_eq_true. cbv zeta.
  destruct (getSubstitution_key p (JsString.take i (front +:+ p +:+ back))
              (JsString.drop (i + String.length p) (front +:+ p +:+ back)) x) as [y ->].
  rewrite <- !append_assoc, (append_assoc _ " key={index}"). apply includes_occurs.
Qed.

Lemma all_in_append (k : cclass) (a b : string) :
  all_in k (a +:+ b) = all_in k a && all_in k b.
Proof.
  induction a as [|x a IH]; [by rewrite append_nil_l|].
  rewrite append_cons. simpl. by rewrite IH, andb_assoc.
Qed.

Lemma space_not_letter (w : string) :
  all_in CSpace w = true → all_in (CNot "c") w = true.
Proof.
  induction w as [|x w IH]; [done|]. simpl.
  intros [Hx Hw]%andb_true_iff. rewrite (IH Hw), andb_true_r.
  destruct (Ascii.eqb_spec x "c") as [->|]; [|done]. by vm_compute in Hx.
Qed.

(** A pattern does not occur in a text without its first character. *)
Lemma indexOf_without_head (c : ascii) (p s : string) :
  all_in (CNot c) s = true → JsString.indexOf (String c p) s = None.
Proof.
  induction s as [|x s IH]; [done|]. simpl.
  intros [Hx Hs]%andb_true_iff. rewrite (IH Hs).
  rewrite Ascii.eqb_sym. by destruct (Ascii.eqb x c).
Qed.

(** In a text of [supabasePattern], [const { data }] stands at the start
    or nowhere. *)
Lemma supabasePattern_const (t : string) :
  lang supabasePattern t →
  JsString.indexOf "const { data }" t
  = if JsString.startsWith "const { data }" t then Some 0 else None.
Proof.
  unfold supabasePattern. cbn [Seqs lang].
  intros (p1 & q1 & -> & ->%lang_Lit
          & p2 & q2 & -> & [_ W2%space_not_letter]
          & p3 & q3 & -> & ->%lang_Lit
          & p4 & q4 & -> & W4%space_not_letter
          & p5 & q5 & -> & ->%lang_Lit
          & p6 & q6 & -> & W6%space_not_letter
          & p7 & q7 & -> & ->%lang_Lit
          & p8 & q8 & -> & W8%space_not_letter
          & p9 & q9 & -> & ->%lang_Lit
          & p10 & q10 & -> & W10%space_not_letter
          & p11 & q11 & -> & ->%lang_Lit
          & p12 & q12 & -> & [_ W12%space_not_letter]
          & p13 & q13 & -> & ->%lang_Lit & ->).
  rewrite (append_cons _ "onst"). cbn [JsString.indexOf].
  rewrite indexOf_without_head; [by destruct (JsString.startsWith _ _)|].
  rewrite !all_in_append, W2, W4, W6, W8, W10, W12. done.
Qed.

Section Fixes.
Context {Env : Type} (H : Host Env).

(** X16. For every content, the fix of every finding of [findMissingKeys]
    holds the attribute [ key={index}]: the detector proposes an index key
    for every list it reports, whatever the callback's parameters are. *)
Theorem findMissingKeys_index_key (content path : string) (w : World Env) :
  ∃ l, (findMissingKeys H content path w).1 = Ok l
       ∧ Forall (λ i, JsString.includes " key={index}" (fixed (fix_ i)) = true) l.
Proof.
  destruct (findMissingKeys_run H content path w) as (ms & o & M & ->).
  exists (missing_key H content path <$> ms). split; [done|].
  apply matches_captures in M. apply Forall_fmap.
  eapply Forall_impl; [exact M|]. intros m (front & tag & E & G & _)%mapPattern_groups.
  simpl. unfold group. rewrite G, E. simpl default.
  pose proof (replace_key ("<" +:+ tag) ("<" +:+ tag) front "") as K.
  by rewrite !append_nil_r, !append_assoc in K.
Qed.

(** X17. For every content, the fix of every finding of
    [findMissingErrorHandling] is of one of two kinds. Where the matched
    text begins with [const { data }], spaced exactly so, the fix has
    [const { data, error }] in its place and the [throw] line after the
    text. Otherwise [const { data }] does not occur in the matched text, and
    the fix is the matched text unchanged with the [throw] line after it. *)
Theorem findMissingErrorHandling_fixes (content path : string) (w : World Env) :
  ∃ l, (findMissingErrorHandling H content path w).1 = Ok l
       ∧ Forall (λ i,
           (JsString.startsWith "const { data }" (original (fix_ i)) = true
            ∧ fixed (fix_ i)
              = "const { data, error }" +:+ JsString.drop 14 (original (fix_ i))
                +:+ String "010" "  if (error) throw error")
           ∨ (JsString.includes "const { data }" (original (fix_ i)) = false
              ∧ fixed (fix_ i)
                = original (fix_ i) +:+ String "010" "  if (error) throw error")) l.
Proof.
  destruct (findMissingErrorHandling_run H content path w) as (ms & o & M & ->).
  exists (missing_error_handling H content path <$> ms). split; [done|].
  apply matches_sound in M as [F _]. apply Forall_fmap.
  eapply Forall_impl; [exact F|]. intros m [L _]. simpl.
  apply supabasePattern_const in L.
  unfold JsString.replace, JsString.includes. rewrite L.
  destruct (JsString.startsWith "const { data }" (m_0 m)) eqn:S; [left|right].
  - split; [done|]. cbv zeta. simpl JsString.take. simpl JsString.getSubstitution.
    rewrite append_nil_l. by rewrite !append_assoc.
  - done.
Qed.

End Fixes.

(** ** The analytics *)

Lemma number_or_plain (o : gmap string nat) (k : string) (d : nat) :
  k ∉ Object_prototype →
  FixAnalytics.number_or o k d
  = Some (if bool_decide (default 0 (o !! k) = 0) then d else default 0 (o !! k)).
Proof.
  intros N. unfold FixAnalytics.number_or. destruct (o !! k) as [n|]; [done|].
  by rewrite bool_decide_eq_false_2.
Qed.

Lemma estimateTimeSaved_bounds (f : Finding) (n : nat) :
  FixAnalytics.estimateTimeSaved f = Some n → 1 ≤ n ≤ 10.
Proof.
  unfold FixAnalytics.estimateTimeSaved, FixAnalytics.number_or.
  destruct (FixAnalytics.timeSavings !! type f) as [k|] eqn:E.
  - apply elem_of_list_to_map_2 in E. rewrite !elem_of_cons, elem_of_nil in E.
    intros [= <-]. destruct E as [E|[E|[E|[E|[E|[]]]]]]; injection E as _ ->; simpl; lia.
  - destruct (bool_decide _); [done|]. intros [= <-]. lia.
Qed.

Lemma recordFix_plain (f : Finding) (m : FixAnalytics.Metrics) :
  FixAnalytics.plain f →
  ∃ saved, 1 ≤ saved ≤ 10
    ∧ FixAnalytics.recordFix f m
      = Some {| FixAnalytics.total_fixes := FixAnalytics.total_fixes m + 1;
                FixAnalytics.success_rate := FixAnalytics.success_rate m;
                FixAnalytics.categories :=
                  <[category f := S (default 0 (FixAnalytics.categories m !! category f))]>
                    (FixAnalytics.categories m);
                FixAnalytics.time_saved := FixAnalytics.time_saved m + saved |}.
Proof.
  intros [Nc Nt]. unfold FixAnalytics.recordFix.
  rewrite number_or_plain; [|done]. simpl.
  destruct (FixAnalytics.estimateTimeSaved f) as [saved|] eqn:E.
  - exists saved. split; [by eapply estimateTimeSaved_bounds|]. simpl.
    do 2 f_equal. f_equal. case_bool_decide; lia.
  - unfold FixAnalytics.estimateTimeSaved in E. by rewrite number_or_plain in E.
Qed.

Lemma recordFixes_plain (l : list Finding) (m : FixAnalytics.Metrics) :
  Forall FixAnalytics.plain l →
  ∃ m', FixAnalytics.recordFixes l m = Some m'
        ∧ FixAnalytics.total_fixes m' = FixAnalytics.total_fixes m + length l
        ∧ FixAnalytics.success_rate m' = FixAnalytics.success_rate m
        ∧ sum_counts (FixAnalytics.categories m')
          = sum_counts (FixAnalytics.categories m) + length l
        ∧ (∀ c, default 0 (FixAnalytics.categories m' !! c)
                = default 0 (FixAnalytics.categories m !! c)
                  + length (filter (λ f, category f = c) l))
        ∧ FixAnalytics.time_saved m + length l ≤ FixAnalytics.time_saved m'
        ∧ FixAnalytics.time_saved m' ≤ FixAnalytics.time_saved m + 10 * length l.
Proof.
  intros P. revert m. induction P as [|f l Pf P IH]; intros m.
  - exists m. simpl. split_and!; try done; try lia.
  - destruct (recordFix_plain f m Pf) as (saved & B & E).
    cbn [FixAnalytics.recordFixes]. rewrite E. simpl.
    destruct (IH {| FixAnalytics.total_fixes := FixAnalytics.total_fixes m + 1;
                    FixAnalytics.success_rate := FixAnalytics.success_rate m;
                    FixAnalytics.categories :=
                      <[category f := S (default 0 (FixAnalytics.categories m !! category f))]>
                        (FixAnalytics.categories m);
                    FixAnalytics.time_saved := FixAnalytics.time_saved m + saved |})
      as (m' & -> & T & R & C & K & L1 & L2).
    simpl in T, R, C, K, L1, L2. exists m'. split_and!; try done; try lia.
    + rewrite C, sum_counts_step. lia.
    + intros c. rewrite K, filter_cons.
      destruct (decide (category f = c)) as [->|N].
      * rewrite lookup_insert_eq. simpl. lia.
      * rewrite lookup_insert_ne; [lia|done].
Qed.

(** X18. Recorded from a new [FixAnalytics] for findings whose categories
    and types are no property names of [Object.prototype], the metrics
    stay numbers: the total is the number of the findings, the counts of
    the categories add up to it, the count of each category is the number
    of its findings, the success rate stays 0, and the minutes saved are
    between one and ten for each finding. *)
Theorem recordFix_metrics (l : list Finding) :
  Forall FixAnalytics.plain l →
  ∃ m, FixAnalytics.recordFixes l FixAnalytics.constructor = Some m
       ∧ FixAnalytics.total_fixes m = length l
       ∧ FixAnalytics.success_rate m = 0
       ∧ sum_counts (FixAnalytics.categories m) = length l
       ∧ (∀ c, default 0 (FixAnalytics.categories m !! c)
               = length (filter (λ f, category f = c) l))
       ∧ length l ≤ FixAnalytics.time_saved m ≤ 10 * length l.
Proof.
  intros P.
  destruct (recordFixes_plain l FixAnalytics.constructor P)
    as (m & E & T & R & C & K & L1 & L2).
  by exists m.
Qed.

Section AnalyticsOfDetectors.
Context {Env : Type} (H : Host Env).

(** X19. The findings of [findMissingKeys] and of
    [findMissingErrorHandling] are estimated at the default of two minutes
    each, for every content: their types, [missing_key] and
    [missing_error_handling], are not among the names of [timeSavings],
    whose entries [react_keys] and [error_handling] never apply to them. *)
Theorem detector_findings_default_estimate (content path : string) (w : World Env) :
  (∃ l, (findMissingKeys H content path w).1 = Ok l
        ∧ Forall (λ i, FixAnalytics.estimateTimeSaved i = Some 2) l)
  ∧ (∃ l, (findMissingErrorHandling H content path w).1 = Ok l
          ∧ Forall (λ i, FixAnalytics.estimateTimeSaved i = Some 2) l).
Proof.
  split.
  - destruct (findMissingKeys_run H content path w) as (ms & o & _ & ->).
    eexists. split; [done|]. apply Forall_fmap, Forall_forall. intros m _. by vm_compute.
  - destruct (findMissingErrorHandling_run H content path w) as (ms & o & _ & ->).
    eexists. split; [done|]. apply Forall_fmap, Forall_forall. intros m _. by vm_compute.
Qed.

End AnalyticsOfDetectors.

(** ** Failures of the host *)

Section HostFailures.
Context {Env : Type} (H : Host Env).

(** X20. No fix without its backup: when the configuration asks for a
    backup and [createBackup] throws, [applyFix] catches the exception,
    writes it on the console and returns normally; no fixer is called, no
    applied fix is pushed, and the host is as the failed backup left it. *)
Theorem applyFix_backup_failure (i : Finding) (w : World Env) (message : string) (e' : Env) :
  backup_flag (config (this w)) = Some true →
  createBackup H (filePath i) (env w) = (inr message, e') →
  applyFix H i w
  = (Ok (), mkWorld (this w) (heap w)
                    (trace w ++ [Attempt i; Console (LogError message)]) e').
Proof.
  destruct w as [[c fx iss afs] hp tr0 e]. simpl. intros Hb Hc.
  destruct c as [c|]; [|done]. injection Hb as Hb.
  unfold applyFix, try_catch, mbind, JS_bind, emit, get_this, ext, throw, mret, JS_ret,
    console_log, emit; simpl. rewrite Hb. simpl. rewrite Hc. simpl.
  by rewrite <- app_assoc.
Qed.

(** X21. A root directory that cannot be listed ends the programmatic
    usage: when [getProjectFiles] throws, the usage throws that exception
    after the first console line; no file is read, no fix is attempted, no
    report is made, and the instance is the fresh one. *)
Theorem usage_unreadable_root (config : option (gmap string JsVal)) (projectPath : string)
    (w : World Env) (message : string) (e' : Env) :
  getProjectFiles H projectPath (env w) = (inr message, e') →
  usage H config projectPath w
  = (Throw message,
     mkWorld (constructor config) (heap w) (trace w ++ [Console LogAnalyzing]) e').
Proof.
  intros Hg. unfold usage. rewrite bind_run. unfold set_this at 1. cbv beta iota.
  rewrite bind_run. unfold analyzeProject. rewrite bind_run.
  unfold console_log at 1, emit at 1. cbv beta iota. rewrite bind_run.
  unfold ext at 1. cbn [env this heap trace]. by rewrite Hg.
Qed.

End HostFailures.

(** ** The further properties on the examples *)

Import Samples.

(** A formatting finding on the instance of the document: no fixer is
    registered under its category. *)
Lemma applyFix_unregistered_witness :
  let w := Demo.world (Some documented_config) app_env in
  Map.get (fixers (this w)) (category formatting_issue) = None
  ∧ ∃ message,
      applyFix Demo.host formatting_issue w
      = (Ok (),
         mkWorld (this w) (heap w)
                 (trace w ++ [Attempt formatting_issue; Console (LogError message)])
                 (match backup_flag (config (this w)) with
                  | Some true => (createBackup Demo.host (filePath formatting_issue) (env w)).2
                  | _ => env w
                  end)).
Proof.
  intros w. split; [reflexivity|].
  apply (applyFix_unregistered Demo.host formatting_issue w). reflexivity.
Defined.

(** The two findings of the examples on an instance without a
    configuration. *)
Lemma applyFixes_no_config_witness :
  let w := mkWorld (instance_with None [list_issue; performance_issue]) [] [] app_env in
  config (this w) = None
  ∧ ∃ tr,
      applyFixes Demo.host w
      = (Ok (appliedFixes (this w)),
         mkWorld (this w) (heap w) (trace w ++ tr)
                 (after_prompts Demo.host (length (suggestedIssues (issues (this w))))
                                (env w))).
Proof.
  intros w. split; [reflexivity|].
  apply (applyFixes_no_config Demo.host w). reflexivity.
Defined.

(** The user who declines every fix: only the finding at 0.95 is
    attempted. *)
Lemma applyFixes_constant_answer_witness :
  let w := mkWorld (instance_with (Some documented_config) [list_issue; performance_issue])
                   [] [] app_env in
  (∀ message e, (promptUser declining_host message e).1 = false)
  ∧ ∃ tr, trace (applyFixes declining_host w).2 = trace w ++ tr
          ∧ attempts tr = safeIssues (issues (this w))
                          ++ (if false then suggestedIssues (issues (this w)) else []).
Proof.
  intros w. split; [reflexivity|].
  apply (applyFixes_constant_answer declining_host false w). reflexivity.
Defined.

(** A finding without a confidence among the issues of an instance. *)
Lemma applyFixes_nan_confidence_witness :
  let w := mkWorld (instance_with (Some documented_config) [nan_issue; list_issue])
                   [] [] app_env in
  nan_issue ∈ issues (this w)
  ∧ ∃ tr, trace (applyFixes Demo.host w).2 = trace w ++ tr
          ∧ (PrimFloat.is_nan (confidence nan_issue) = true →
               (nan_issue ∉ safeIssues (issues (this w)))
               ∧ (nan_issue ∉ suggestedIssues (issues (this w)))
               ∧ (nan_issue ∉ attempts tr))
          ∧ (PrimFloat.is_nan (confidence nan_issue) = false →
               nan_issue ∈ safeIssues (issues (this w))
               ∨ nan_issue ∈ suggestedIssues (issues (this w))).
Proof.
  intros w. split; [apply list_elem_of_here|].
  apply (applyFixes_nan_confidence Demo.host w nan_issue). apply list_elem_of_here.
Defined.

(** The second file of the listing is not there: the third is never
    analysed. *)
Lemma analyzeProject_unreadable_file_witness :
  let w := Demo.world (Some documented_config) broken_env in
  let w1 := (for_of ["src/List.jsx"] (analyzeFile Demo.host)
               (mkWorld (this w) (heap w) (trace w ++ [Console LogAnalyzing]) broken_env)).2 in
  analyzeProject Demo.host "./src" w
  = (Throw "ENOENT: no such file or directory",
     mkWorld (this w1) (heap w1) (trace w1) broken_env).
Proof.
  intros w w1.
  apply (analyzeProject_unreadable_file Demo.host "./src" w w1
           ["src/List.jsx"] ["src/api.js"] "src/missing.js"
           "ENOENT: no such file or directory" broken_env broken_env).
  - reflexivity.
  - by vm_compute.
  - by vm_compute.
Defined.

(** A Markdown file that holds the text of the first scenario: it is read
    and not analysed. *)
Lemma analyzeFile_unhandled_witness :
  let w := Demo.world (Some documented_config) docs_env in
  analyzeFile Demo.host "README.md" w
  = (Ok (), mkWorld (this w) (heap w) (trace w) docs_env).
Proof.
  intros w.
  apply (analyzeFile_unhandled Demo.host "README.md"
           "# items.map(item => <div>{item.name}</div>)" w docs_env).
  - by vm_compute.
  - repeat constructor.
Defined.

(** The report of the programmatic usage on the project of the two
    scenarios. *)
Lemma usage_report_consistent_witness :
  ∃ r w',
    usage Demo.host (Some documented_config) "./src" (Demo.world None project_env)
    = (Ok r, w')
    ∧ total_issues r = length (issues (this w'))
    ∧ applied_fixes r ≤ total_issues r
    ∧ ∀ p, p ∈ files_modified r → ∃ i, i ∈ issues (this w') ∧ filePath i = p.
Proof.
  destruct (usage Demo.host (Some documented_config) "./src" (Demo.world None project_env))
    as [[r| |] w'] eqn:E; [|by vm_compute in E..].
  exists r, w'. split; [done|].
  exact (usage_report_consistent Demo.host (Some documented_config) "./src"
           (Demo.world None project_env) w' r E).
Defined.

(** The two findings of the examples, recorded. *)
Lemma recordFix_metrics_witness :
  Forall FixAnalytics.plain [list_issue; performance_issue]
  ∧ ∃ m, FixAnalytics.recordFixes [list_issue; performance_issue] FixAnalytics.constructor
         = Some m
         ∧ FixAnalytics.total_fixes m = 2
         ∧ FixAnalytics.success_rate m = 0
         ∧ sum_counts (FixAnalytics.categories m) = 2
         ∧ (∀ c, default 0 (FixAnalytics.categories m !! c)
                 = length (filter (λ f, category f = c) [list_issue; performance_issue]))
         ∧ 2 ≤ FixAnalytics.time_saved m ≤ 10 * 2.
Proof.
  assert (P : Forall FixAnalytics.plain [list_issue; performance_issue])
    by (repeat constructor; compute_done).
  split; [exact P|].
  exact (recordFix_metrics [list_issue; performance_issue] P).
Defined.

(** The backup of a file that is not there: the finding of the first
    scenario on the project of the performance example. *)
Lemma applyFix_backup_failure_witness :
  let w := Demo.world (Some documented_config) app_env in
  applyFix Demo.host list_issue w
  = (Ok (), mkWorld (this w) (heap w)
                    (trace w ++ [Attempt list_issue;
                                 Console (LogError "ENOENT: no such file or directory")])
                    app_env).
Proof.
  intros w.
  apply (applyFix_backup_failure Demo.host list_issue w
           "ENOENT: no such file or directory" app_env).
  - by vm_compute.
  - by vm_compute.
Defined.

(** The programmatic usage over a root that cannot be listed. *)
Lemma usage_unreadable_root_witness :
  usage rootless_host (Some documented_config) "./src" (Demo.world None project_env)
  = (Throw "ENOENT: no such file or directory, scandir",
     mkWorld (constructor (Some documented_config)) [] ([] ++ [Console LogAnalyzing])
             project_env).
Proof.
  apply (usage_unreadable_root rootless_host (Some documented_config) "./src"
           (Demo.world None project_env)
           "ENOENT: no such file or directory, scandir" project_env).
  reflexivity.
Defined.
